(* ===== verification/_CoqProject ===== *)
-Q . S2P
Prelude.v
Board.v
Heap.v
Evaluation.v
Search.v
TicTacToe.v
Game.v
Play.v
