(* ===== verification/Prelude.v ===== *)
(** * A verification development of [src/tictactoe/tictactoe.py]

    The program is a Tic-Tac-Toe engine in a single Python module.  Its
    parts and the way they call each other:

    - board queries: [initial_state], [_count_X_and_Os], [player],
      [actions] and [result] (lines 14-79).  [result] is the only
      function with an error path: it raises when the target cell is
      occupied, and Python's list indexing raises [IndexError] or wraps
      negative indices around;
    - static evaluation: [winner], [terminal] and [utility] (lines
      82-125), which read the board only;
    - the search: [_max_value], [_min_value] and [minimax] (lines
      128-181), which call the five functions [player], [actions],
      [result], [terminal] and [utility] and nothing else.

    The files of the development, in dependency order:

    - [Prelude] (this file): the Python runtime the module relies on.
      The exceptions it can raise ([exn]), a result type [res] with
      stdpp's monad notation ([x ← m; k]), Python numbers extended
      with [float("inf")] ([num]), the builtins [max], [min],
      [list.index] and [list[i]], and generic lemmas on them, collected
      in the hint database [py].
    - [Board]: the cells, players and the 3×3 board (a record of three
      rows of three cells), [initial_state], [_count_X_and_Os],
      [player], [actions] and [result], with Python's index semantics
      for the action given to [result].
    - [Heap]: the board as Python objects.  A heap of list objects
      at locations, subscripting and item assignment with Python's
      index rules, [copy.deepcopy] with its memo, and [initial_state],
      [_count_X_and_Os], [player] and [result] reading and writing
      through references; [read_board] maps a board object back to a
      [Board.board].
    - [Evaluation]: [winner], [terminal] and [utility].
    - [Search]: the interface the search needs ([GameEngine], a type
      class with the five functions above) and the search itself,
      [max_value], [min_value] and [minimax], written once against the
      interface.  Its theorems are proved against the interface and the
      laws of [GameEngineLaws].
    - [TicTacToe]: the instance of the interface for the board, the
      proof of its laws and the concrete [minimax] of the module.
    - [Game]: the caller's protocol, which the repository leaves to an
      external caller and the specification (section 2) describes:
      [step] plays a listed action on a non-terminal board with
      [result]; [reachable] boards are those [step] leads to from
      [initial_state].  The invariant of reachable boards, an abstract
      game value [Search.game_value] that the search refines, the
      concrete boards on which [winner] misses a line, and whole games
      as sequences of steps.
    - [Play]: two callers: the loop with both players calling
      [minimax] ([self_play]), and a game of the engine against a human
      who plays any listed action ([ai_step]), with the theorems about
      whole games.

    The theorems, by group (the claim ids C1..C26 are in the doc
    comment of each):

    - [Board]: [result] on an empty cell writes the mover's mark and
      nothing else, on an occupied cell raises [NameError] (the
      undefined [ValidationError]), outside [[-3, 3)] raises
      [IndexError] and wraps negative indices; [actions] lists the
      empty cells once each, in row-major order, and loses exactly the
      played one; [_count_X_and_Os] counts exactly the [X] and [O]
      cells, which with the empty cells make the nine.
    - [Heap]: on a board object whose rows are distinct lists, the
      heap [result] refines [Board.result], errors included; whatever
      the board object, a successful [result] mutates no existing
      object (an invariant of [deepcopy]: it only allocates, and new
      objects hold only new references); [initial_state] builds
      distinct rows.
    - [Evaluation]: [winner] agrees with the specification's winner
      when no line is all empty, is sound, and returns [None] whenever
      the top row is empty (the bug of line 88); an owned line with no
      all-empty line makes the board terminal; a full board without a
      winner is a draw.
    - [Search] and [TicTacToe]: [minimax] never raises; [_max_value]
      and [_min_value] return an [int] in [[-1, 1]] and the same value
      for any fuel above [search_fuel]; on a board whose win [winner]
      misses, the game is not terminal and the search plays on.
    - [Game]: the counts invariant of reachable boards (rule induction
      on [rtc step]); the refinement of the game value
      [Search.game_value] by the search, and the optimality of the
      move [minimax] picks measured by that game value, with the
      first-in-row-major-order tie-break; every game ends (the converse
      of [step] is well founded), and marks are permanent.
    - [Play]: [self_play] on a reachable board ends on a terminal board
      whose utility is the game value of its start; against any human
      the engine secures the game value of the board it starts from
      (rule induction on [rtc (ai_step ai)], with the game-value
      bounds of [Search.game_value_child]).

    Besides the claims, [Game], [Play] and [Heap] keep a few lemmas
    evaluated on concrete boards, the evidence for the findings: the
    reachable board on which [X] has won unseen and [O] is then
    credited the win, the game in which the engine does not block a
    line [winner] cannot see, and the board whose rows are one object.

    Fuel.  [max_value] and [min_value] recurse once per move; each move
    fills an empty cell, so a board with [k] empty cells needs [k + 1]
    levels and a 3×3 board at most 10.  The model runs out of fuel with
    [RecursionError], the error Python raises when its recursion limit
    (1000 frames) is exceeded; [TicTacToe.search_fuel] is 10 and the
    theorems show that it is never reached.  [Play.self_play] iterates
    once per move and is also run with [search_fuel]: a board has at
    most 9 empty cells, so 10 iterations always reach a terminal board
    ([Play.self_play_ends]).

    [Heap.deepcopy_fuel] is 500: Python's default recursion limit is
    1000 frames and [deepcopy] spends two per level of nesting; a
    board has two levels.

    Not modelled: nothing of the module is left out.  The caller (a UI
    loop or test harness, with input and rendering) is not in the
    repository; only its protocol is modelled, from the specification.
    The functional model ([Board]) has 3×3 boards by construction; the
    heap model ([Heap]) takes any object graph, but its theorems about
    the functional result are stated for board objects that read back
    as a 3×3 board.  [player] and [result] on ill-shaped boards
    ([IndexError] and [TypeError] from the loops) are defined but not
    studied.  Of the Python runtime only what the module uses is
    modelled: the interpreter itself, garbage collection and object
    identity beyond list locations are not. *)

From stdpp Require Export base list strings sorting.
From Stdlib Require Export ZArith Lia.

Declare Scope py_scope.
Delimit Scope py_scope with py.
Open Scope py_scope.

Create HintDb py.
Create Rewrite HintDb py.

(** ** Exceptions and results *)

(** The exceptions the module can raise.  [NameError] carries the
    unbound name that was looked up; [TypeError] is raised when a value
    that is not a list is subscripted. *)
Inductive exn :=
  | NameError (name : string)
  | IndexError
  | ValueError
  | RecursionError
  | TypeError.

#[export] Instance exn_eq_dec : EqDecision exn.
Proof. solve_decision. Defined.

(** A Python computation either returns a value or raises. *)
Inductive res (A : Type) :=
  | Ok (a : A)
  | Raise (e : exn).
Arguments Ok {A} a.
Arguments Raise {A} e.

Notation "'raise' e" := (Raise e) (at level 10) : py_scope.

#[export] Instance res_ret : MRet res := λ A a, Ok a.
#[export] Instance res_bind : MBind res :=
  λ A B f m, match m with Ok a => f a | Raise e => Raise e end.

(** Left fold with a body that may raise: a Python [for] loop that
    updates an accumulator. *)
Fixpoint foldM {A B} (f : B → A → res B) (l : list A) (acc : B) : res B :=
  match l with
  | [] => Ok acc
  | x :: l' => acc' ← f acc x; foldM f l' acc'
  end.

(** ** Python numbers: [int] and the two infinite floats *)

Inductive num :=
  | NegInf
  | Int (z : Z)
  | PosInf.

#[export] Instance num_eq_dec : EqDecision num.
Proof. solve_decision. Defined.

Definition num_ltb (a b : num) : bool :=
  match a, b with
  | NegInf, NegInf => false
  | NegInf, _ => true
  | Int x, Int y => (x <? y)%Z
  | Int _, PosInf => true
  | _, _ => false
  end.

Notation "a <ₙ b" := (num_ltb a b = true) (at level 70) : py_scope.

(** [max(a, b)] keeps [a] unless [b > a]; [min(a, b)] keeps [a] unless
    [b < a] (CPython's [min_max]). *)
Definition py_max2 (a b : num) : num := if num_ltb a b then b else a.
Definition py_min2 (a b : num) : num := if num_ltb b a then b else a.

(** [max(values)] and [min(values)] on a list: [ValueError] when empty. *)
Definition py_max (l : list num) : res num :=
  match l with [] => raise ValueError | x :: l' => Ok (fold_left py_max2 l' x) end.
Definition py_min (l : list num) : res num :=
  match l with [] => raise ValueError | x :: l' => Ok (fold_left py_min2 l' x) end.

(** [l.index(x)]: the first position of [x], [ValueError] if absent. *)
Fixpoint py_index `{EqDecision A} (x : A) (l : list A) : res nat :=
  match l with
  | [] => raise ValueError
  | y :: l' => if decide (x = y) then Ok 0 else i ← py_index x l'; Ok (S i)
  end.

(** [l[i]] for a non-negative [i]. *)
Definition py_getitem {A} (l : list A) (i : nat) : res A :=
  match l !! i with Some x => Ok x | None => raise IndexError end.

(** ** Lemmas on results *)

Lemma bind_Ok {A B} (m : res A) (f : A → res B) (b : B) :
  (m ≫= f) = Ok b ↔ ∃ a, m = Ok a ∧ f a = Ok b.
Proof.
  destruct m as [a|e]; simpl; split.
  - eauto.
  - intros (a' & [= ->] & ?); done.
  - discriminate.
  - intros (? & ? & _); discriminate.
Qed.

Lemma bind_Ok_l {A B} (a : A) (f : A → res B) : (Ok a ≫= f) = f a.
Proof. done. Qed.

Lemma bind_Raise_l {A B} (e : exn) (f : A → res B) : (Raise e ≫= f) = Raise e.
Proof. done. Qed.

#[export] Hint Rewrite @bind_Ok_l @bind_Raise_l : py.

Section MapM.
Context {A B : Type} (f : A → res B).

Lemma mapM_Ok (l : list A) (k : list B) :
  mapM f l = Ok k ↔ Forall2 (λ x y, f x = Ok y) l k.
Proof.
  revert k. induction l as [|x l IH]; intros k; simpl.
  - split; [by intros [= <-] | by inversion 1].
  - rewrite bind_Ok. setoid_rewrite bind_Ok. split.
    + intros (y & Hy & k' & Hk' & [= <-]). constructor; [done|]. by apply IH.
    + inversion 1 as [|? y ? k' Hy Hk]; subst.
      exists y. split; [done|]. exists k'. split; [by apply IH|done].
Qed.

End MapM.

(** A [foldM] whose step never raises is a [fold_left]. *)
Lemma foldM_pure {A B} (f : B → A → res B) (g : B → A → B) (l : list A) (acc : B) :
  (∀ b x, x ∈ l → f b x = Ok (g b x)) → foldM f l acc = Ok (fold_left g l acc).
Proof.
  revert acc. induction l as [|x l IH]; intros acc Hf; simpl; [done|].
  rewrite Hf by (by left). simpl. apply IH. intros b y Hy. apply Hf. by right.
Qed.

(** ** Lemmas on lists *)

Lemma filter_all {A} (P : A → Prop) `{∀ x, Decision (P x)} (l : list A) :
  (∀ x, x ∈ l → P x) → filter P l = l.
Proof.
  induction l as [|x l IH]; intros Hall; [done|]. rewrite filter_cons.
  rewrite decide_True by (apply Hall; by left). f_equal.
  apply IH. intros y Hy. apply Hall. by right.
Qed.

(** Removing an element that occurs once shortens a list by one. *)
Lemma length_filter_ne `{EqDecision A} (l : list A) (a : A) :
  NoDup l → a ∈ l → length (filter (λ x, x ≠ a) l) = length l - 1.
Proof.
  induction l as [|x l IH]; intros Hnd Ha; [by apply elem_of_nil in Ha|].
  apply NoDup_cons in Hnd as [Hx Hnd]. rewrite filter_cons. simpl.
  case_decide as Hxa.
  - apply elem_of_cons in Ha as [-> | Ha]; [done|]. simpl.
    rewrite IH by done. destruct l; [by apply elem_of_nil in Ha|]. simpl; lia.
  - subst x. rewrite filter_all; [lia|].
    intros y Hy ->. contradiction.
Qed.

(** A [for] loop whose body may [return]: the first value returned. *)
Fixpoint first_return {A B} (f : A → option B) (l : list A) : option B :=
  match l with
  | [] => None
  | x :: l' => match f x with Some y => Some y | None => first_return f l' end
  end.

Lemma first_return_Some {A B} (f : A → option B) (l : list A) (y : B) :
  first_return f l = Some y → ∃ x, x ∈ l ∧ f x = Some y.
Proof.
  induction l as [|x l IH]; simpl; [done|].
  destruct (f x) as [y'|] eqn:Hx.
  - intros [= <-]. exists x. split; [by left|done].
  - intros H. destruct (IH H) as (x' & ? & ?). exists x'. split; [by right|done].
Qed.

Lemma first_return_None {A B} (f : A → option B) (l : list A) :
  first_return f l = None ↔ ∀ x, x ∈ l → f x = None.
Proof.
  induction l as [|x l IH]; simpl.
  - split; [intros _ y Hy; by apply elem_of_nil in Hy|done].
  - destruct (f x) as [y|] eqn:Hx; split.
    + discriminate.
    + intros H. rewrite H in Hx; [discriminate|by left].
    + intros H y Hy. apply elem_of_cons in Hy as [->|Hy]; [done|]. by apply IH.
    + intros H. apply IH. intros y Hy. apply H. by right.
Qed.

(** A loop whose returns are those of another loop, wrapped. *)
Lemma first_return_fmap {A B C} (f : A → option C) (g : A → option B) (h : B → C) (l : list A) :
  (∀ x, x ∈ l → f x = h <$> g x) → first_return f l = h <$> first_return g l.
Proof.
  induction l as [|x l IH]; intros Hfg; simpl; [done|].
  rewrite Hfg by (by left). destruct (g x); simpl; [done|].
  apply IH. intros y Hy. apply Hfg. by right.
Qed.

(** ** Lemmas on the builtins *)

Lemma num_ltb_irrefl (a : num) : num_ltb a a = false.
Proof. destruct a; simpl; [done| |done]. apply Z.ltb_irrefl. Qed.

Lemma num_ltb_asym (a b : num) : num_ltb a b = true → num_ltb b a = false.
Proof. destruct a, b; simpl; try done. rewrite Z.ltb_lt, Z.ltb_ge. lia. Qed.

Lemma num_ltb_ge_trans (a b c : num) :
  num_ltb a b = false → num_ltb b c = false → num_ltb a c = false.
Proof. destruct a, b, c; simpl; try done; rewrite ?Z.ltb_ge; lia. Qed.

Lemma py_max2_ge (a b : num) :
  num_ltb (py_max2 a b) a = false ∧ num_ltb (py_max2 a b) b = false.
Proof.
  unfold py_max2. destruct (num_ltb a b) eqn:E.
  - split; [by apply num_ltb_asym|apply num_ltb_irrefl].
  - split; [apply num_ltb_irrefl|done].
Qed.

Lemma py_min2_le (a b : num) :
  num_ltb a (py_min2 a b) = false ∧ num_ltb b (py_min2 a b) = false.
Proof.
  unfold py_min2. destruct (num_ltb b a) eqn:E.
  - split; [by apply num_ltb_asym|apply num_ltb_irrefl].
  - split; [apply num_ltb_irrefl|done].
Qed.

Lemma py_max2_Int (x y : Z) : py_max2 (Int x) (Int y) = Int (Z.max x y).
Proof. unfold py_max2. simpl. destruct (Z.ltb_spec x y); f_equal; lia. Qed.

Lemma py_min2_Int (x y : Z) : py_min2 (Int x) (Int y) = Int (Z.min x y).
Proof. unfold py_min2. simpl. destruct (Z.ltb_spec y x); f_equal; lia. Qed.

#[export] Hint Rewrite py_max2_Int py_min2_Int : py.

(** The fold of [max(v, w)] over a list of integers, started at
    [float("-inf")], is the integer maximum of the list. *)
Lemma fold_py_max2_Int (z : Z) (zs : list Z) :
  fold_left py_max2 (Int <$> zs) (Int z) = Int (fold_left Z.max zs z).
Proof.
  revert z. induction zs as [|z' zs IH]; intros z; [done|].
  simpl. rewrite py_max2_Int. apply IH.
Qed.

Lemma fold_py_min2_Int (z : Z) (zs : list Z) :
  fold_left py_min2 (Int <$> zs) (Int z) = Int (fold_left Z.min zs z).
Proof.
  revert z. induction zs as [|z' zs IH]; intros z; [done|].
  simpl. rewrite py_min2_Int. apply IH.
Qed.

Lemma fold_py_max2_in (l : list num) (x m : num) :
  fold_left py_max2 l x = m → m ∈ x :: l ∧ ∀ y, y ∈ x :: l → num_ltb m y = false.
Proof.
  revert x. induction l as [|y l IH]; intros x Hm; simpl in Hm.
  - subst m. split; [by left|]. intros y Hy. apply list_elem_of_singleton in Hy as ->.
    apply num_ltb_irrefl.
  - destruct (IH _ Hm) as [Hin Hge]. destruct (py_max2_ge x y) as [Hx Hy]. split.
    + apply elem_of_cons in Hin as [-> | Hin]; [|by right; right].
      unfold py_max2. case_match; [right; left|left].
    + intros z Hz. apply elem_of_cons in Hz as [-> | [-> | Hz]%elem_of_cons].
      * eapply num_ltb_ge_trans; [apply Hge; by left|done].
      * eapply num_ltb_ge_trans; [apply Hge; by left|done].
      * apply Hge. by right.
Qed.

Lemma fold_py_min2_in (l : list num) (x m : num) :
  fold_left py_min2 l x = m → m ∈ x :: l ∧ ∀ y, y ∈ x :: l → num_ltb y m = false.
Proof.
  revert x. induction l as [|y l IH]; intros x Hm; simpl in Hm.
  - subst m. split; [by left|]. intros y Hy. apply list_elem_of_singleton in Hy as ->.
    apply num_ltb_irrefl.
  - destruct (IH _ Hm) as [Hin Hle]. destruct (py_min2_le x y) as [Hx Hy]. split.
    + apply elem_of_cons in Hin as [-> | Hin]; [|by right; right].
      unfold py_min2. case_match; [right; left|left].
    + intros z Hz. apply elem_of_cons in Hz as [-> | [-> | Hz]%elem_of_cons].
      * eapply num_ltb_ge_trans; [done|apply Hle; by left].
      * eapply num_ltb_ge_trans; [done|apply Hle; by left].
      * apply Hle. by right.
Qed.

(** [max(l)] is an element of [l] that no element exceeds. *)
Lemma py_max_Ok (l : list num) (m : num) :
  py_max l = Ok m → m ∈ l ∧ ∀ y, y ∈ l → num_ltb m y = false.
Proof. destruct l as [|x l]; simpl; [discriminate|]. intros [= H]. by apply fold_py_max2_in. Qed.

Lemma py_min_Ok (l : list num) (m : num) :
  py_min l = Ok m → m ∈ l ∧ ∀ y, y ∈ l → num_ltb y m = false.
Proof. destruct l as [|x l]; simpl; [discriminate|]. intros [= H]. by apply fold_py_min2_in. Qed.

(** [l.index(x)] is the first position of [x] in [l]. *)
Lemma py_index_Ok `{EqDecision A} (x : A) (l : list A) (i : nat) :
  py_index x l = Ok i → l !! i = Some x ∧ ∀ j, j < i → l !! j ≠ Some x.
Proof.
  revert i. induction l as [|y l IH]; intros i; simpl; [discriminate|].
  case_decide as Hxy.
  - intros [= <-]. subst y. split; [done|lia].
  - destruct (py_index x l) as [i'|e] eqn:E; simpl; [|discriminate].
    intros [= <-]. destruct (IH i' eq_refl) as [Hi Hj]. split; [done|].
    intros [|j] Hlt; simpl; [congruence|]. apply Hj. lia.
Qed.

Lemma py_index_elem_of `{EqDecision A} (x : A) (l : list A) :
  x ∈ l → ∃ i, py_index x l = Ok i.
Proof.
  induction l as [|y l IH]; intros Hx; [by apply elem_of_nil in Hx|]. simpl.
  case_decide; [by eexists|]. apply elem_of_cons in Hx as [-> | Hx]; [done|].
  destruct (IH Hx) as [i ->]. by eexists.
Qed.

Lemma py_getitem_lookup {A} (l : list A) (i : nat) (x : A) :
  l !! i = Some x → py_getitem l i = Ok x.
Proof. unfold py_getitem. by intros ->. Qed.

(** A loop that accumulates [op] over the values of [h] is [mapM h]
    followed by a pure fold. *)
Lemma foldM_mapM {A B C} (h : A → res B) (op : C → B → C) (l : list A) (acc : C) :
  foldM (λ c x, y ← h x; Ok (op c y)) l acc =
  (ys ← mapM h l; Ok (fold_left op ys acc)).
Proof.
  revert acc. induction l as [|x l IH]; intros acc; simpl; [done|].
  destruct (h x) as [y|e]; simpl; [|done].
  rewrite IH. by destruct (mapM h l).
Qed.

(** [mapM] only depends on the successful results of its body. *)
Lemma mapM_Ok_mono {A B} (f g : A → res B) (l : list A) (k : list B) :
  (∀ x y, x ∈ l → f x = Ok y → g x = Ok y) → mapM f l = Ok k → mapM g l = Ok k.
Proof.
  intros Hfg. rewrite !mapM_Ok. intros Hk.
  apply Forall2_same_length_lookup in Hk as [Hlen Hk].
  apply Forall2_same_length_lookup. split; [done|].
  intros i x y Hx Hy. apply Hfg; [by eapply list_elem_of_lookup_2|by eapply Hk].
Qed.

Lemma fold_left_invariant {A B} (P : A → Prop) (Q : B → Prop) (f : A → B → A) (l : list B) (a : A) :
  (∀ x y, P x → Q y → P (f x y)) → P a → Forall Q l → P (fold_left f l a).
Proof.
  intros Hf. revert a. induction l as [|y l IH]; intros a Ha Hl; [done|].
  apply Forall_cons in Hl as [Hy Hl]. simpl. apply IH; [by apply Hf|done].
Qed.

Lemma mapM_Ok_Forall {A B} (f : A → res B) (P : B → Prop) (l : list A) :
  (∀ x, x ∈ l → ∃ y, f x = Ok y ∧ P y) → ∃ k, mapM f l = Ok k ∧ Forall P k.
Proof.
  induction l as [|x l IH]; intros Hall; simpl.
  - exists []. split; [done|constructor].
  - destruct (Hall x) as (y & -> & Hy); [by left|]. simpl.
    destruct IH as (k & -> & Hk); [intros z Hz; apply Hall; by right|].
    exists (y :: k). split; [done|by constructor].
Qed.

(** A list of [num]s that are all integers. *)
Lemma Forall_Int (ws : list num) :
  Forall (λ w, ∃ z, w = Int z) ws → ∃ zs, ws = Int <$> zs.
Proof.
  induction ws as [|w ws IH]; intros Hall; [by exists []|].
  apply Forall_cons in Hall as [[z ->] Hall]. destruct (IH Hall) as [zs ->].
  by exists (z :: zs).
Qed.

Lemma fold_py_max2_NegInf (z : Z) (zs : list Z) :
  fold_left py_max2 (Int <$> (z :: zs)) NegInf = Int (fold_left Z.max zs z).
Proof. apply fold_py_max2_Int. Qed.

Lemma fold_py_min2_PosInf (z : Z) (zs : list Z) :
  fold_left py_min2 (Int <$> (z :: zs)) PosInf = Int (fold_left Z.min zs z).
Proof. apply fold_py_min2_Int. Qed.

Lemma py_max2_NegInf_l (w : num) : py_max2 NegInf w = w.
Proof. unfold py_max2. by destruct w. Qed.

Lemma py_min2_PosInf_l (w : num) : py_min2 PosInf w = w.
Proof. unfold py_min2. by destruct w. Qed.

#[export] Hint Rewrite py_max2_NegInf_l py_min2_PosInf_l : py.

Lemma Forall2_elem_of_r {A B} (P : A → B → Prop) (l : list A) (k : list B) (y : B) :
  Forall2 P l k → y ∈ k → ∃ x, x ∈ l ∧ P x y.
Proof.
  induction 1 as [|x y' l k Hxy _ IH]; intros Hy; [by apply elem_of_nil in Hy|].
  apply elem_of_cons in Hy as [-> | Hy].
  - exists x. split; [by left|done].
  - destruct (IH Hy) as (x' & ? & ?). exists x'. split; [by right|done].
Qed.

Lemma Forall2_impl_elem_of {A B} (P Q : A → B → Prop) (l : list A) (k : list B) :
  Forall2 P l k → (∀ x y, x ∈ l → P x y → Q x y) → Forall2 Q l k.
Proof.
  induction 1 as [|x y l k Hxy _ IH]; intros HPQ; constructor.
  - apply HPQ; [by left|done].
  - apply IH. intros x' y' Hx'. apply HPQ. by right.
Qed.

Lemma py_max_fold (vs : list num) (v : num) : py_max vs = Ok v → fold_left py_max2 vs NegInf = v.
Proof. destruct vs as [|w vs]; simpl; [discriminate|]. rewrite py_max2_NegInf_l. by intros [= ->]. Qed.

Lemma py_min_fold (vs : list num) (v : num) : py_min vs = Ok v → fold_left py_min2 vs PosInf = v.
Proof. destruct vs as [|w vs]; simpl; [discriminate|]. rewrite py_min2_PosInf_l. by intros [= ->]. Qed.

Lemma StronglySorted_filter {A} (R : relation A) (P : A → Prop) `{∀ x, Decision (P x)}
    (l : list A) :
  StronglySorted R l → StronglySorted R (filter P l).
Proof.
  induction 1 as [|x l _ IH Hx]; [constructor|]. rewrite filter_cons.
  case_decide; [|done]. constructor; [done|].
  apply Forall_forall. intros y Hy. apply list_elem_of_filter in Hy as [_ Hy].
  by eapply Forall_forall in Hx.
Qed.

Lemma StronglySorted_lookup {A} (R : relation A) (l : list A) (i j : nat) (x y : A) :
  StronglySorted R l → i < j → l !! i = Some x → l !! j = Some y → R x y.
Proof.
  intros Hs. revert i j. induction Hs as [|z l _ IH Hz]; intros i j Hij Hi Hj; [done|].
  destruct i as [|i], j as [|j]; simpl in *; [lia| |lia|].
  - injection Hi as <-. eapply Forall_forall; [exact Hz|]. by eapply list_elem_of_lookup_2.
  - apply (IH i j); [lia|done|done].
Qed.

(** The maximum a [fold_left Z.max] computes bounds its start and every
    element; dually for [Z.min]. *)
Lemma fold_Zmax_start (l : list Z) (z : Z) : (z ≤ fold_left Z.max l z)%Z.
Proof. revert z. induction l as [|y l IH]; intros z; simpl; [lia|]. etrans; [|apply IH]. lia. Qed.

Lemma fold_Zmin_start (l : list Z) (z : Z) : (fold_left Z.min l z ≤ z)%Z.
Proof. revert z. induction l as [|y l IH]; intros z; simpl; [lia|]. etrans; [apply IH|]. lia. Qed.

Lemma fold_Zmax_ge (l : list Z) (z x : Z) : x ∈ z :: l → (x ≤ fold_left Z.max l z)%Z.
Proof.
  revert z. induction l as [|y l IH]; intros z Hx; simpl.
  - apply list_elem_of_singleton in Hx as ->. lia.
  - pose proof (fold_Zmax_start l (Z.max z y)).
    apply elem_of_cons in Hx as [-> | [-> | Hx]%elem_of_cons]; [lia|lia|]. apply IH. by right.
Qed.

Lemma fold_Zmin_le (l : list Z) (z x : Z) : x ∈ z :: l → (fold_left Z.min l z ≤ x)%Z.
Proof.
  revert z. induction l as [|y l IH]; intros z Hx; simpl.
  - apply list_elem_of_singleton in Hx as ->. lia.
  - pose proof (fold_Zmin_start l (Z.min z y)).
    apply elem_of_cons in Hx as [-> | [-> | Hx]%elem_of_cons]; [lia|lia|]. apply IH. by right.
Qed.
