(* ===== verification/Board.v ===== *)
(** * Board: cells, players, the 3×3 board and the board queries

    Models lines 8-79 of [src/tictactoe/tictactoe.py]: the constants
    [X], [O], [EMPTY] and [N], [initial_state], [_count_X_and_Os]
    (here [count_X_and_Os]), [player], [actions] and [result].  A
    Python board is a list of three lists of three cells; here it is a
    record of three rows of three cells, read with [cell_at] at the
    indices [range(N)] and written with [set_cell].  The action that
    [result] receives is a pair of Python integers, indexed with
    Python's list semantics ([py_idx]). *)

From S2P Require Import Prelude.

(** ** Data *)

(** The two players: the strings ["X"] and ["O"] of the source. *)
Inductive Player := X | O.

#[export] Instance Player_eq_dec : EqDecision Player.
Proof. solve_decision. Defined.

(** A cell holds a player or [EMPTY], which is Python's [None]. *)
Abbreviation cell := (option Player).
Abbreviation EMPTY := (@None Player).

Record row := Row { col0 : cell; col1 : cell; col2 : cell }.
Record board := Board { row0 : row; row1 : row; row2 : row }.

#[export] Instance row_eq_dec : EqDecision row.
Proof. solve_decision. Defined.
#[export] Instance board_eq_dec : EqDecision board.
Proof. solve_decision. Defined.

(** The indices [0], [1], [2] of [range(N)]. *)
Inductive idx := I0 | I1 | I2.

#[export] Instance idx_eq_dec : EqDecision idx.
Proof. solve_decision. Defined.

Definition N : nat := 3.
Definition range_N : list idx := [I0; I1; I2].

Definition idx_Z (i : idx) : Z := match i with I0 => 0 | I1 => 1 | I2 => 2 end.

(** An action is the pair of Python integers [(r, c)]. *)
Definition action : Type := Z * Z.

(** [board[r][c]] *)
Definition row_at (b : board) (r : idx) : row :=
  match r with I0 => row0 b | I1 => row1 b | I2 => row2 b end.

Definition cell_at (b : board) (r c : idx) : cell :=
  let rw := row_at b r in
  match c with I0 => col0 rw | I1 => col1 rw | I2 => col2 rw end.

Notation "b .[ r , c ]" := (cell_at b r c) (format "b .[ r ,  c ]") : py_scope.

(** [result[r][c] = v] on the deep copy [result] of the board. *)
Definition set_row (rw : row) (c : idx) (v : cell) : row :=
  match c with
  | I0 => Row v (col1 rw) (col2 rw)
  | I1 => Row (col0 rw) v (col2 rw)
  | I2 => Row (col0 rw) (col1 rw) v
  end.

Definition set_cell (b : board) (r c : idx) (v : cell) : board :=
  match r with
  | I0 => Board (set_row (row0 b) c v) (row1 b) (row2 b)
  | I1 => Board (row0 b) (set_row (row1 b) c v) (row2 b)
  | I2 => Board (row0 b) (row1 b) (set_row (row2 b) c v)
  end.

(** ** Operations *)

Definition initial_state : board :=
  Board (Row EMPTY EMPTY EMPTY) (Row EMPTY EMPTY EMPTY) (Row EMPTY EMPTY EMPTY).

(** The body of the doubly nested [for r in range(N): for c in range(N)]
    loop of [_count_X_and_Os]. *)
Definition count_step (b : board) (acc : nat * nat) (r c : idx) : nat * nat :=
  let '(nXs, nOs) := acc in
  if decide (b.[r, c] = Some X) then (S nXs, nOs)
  else if decide (b.[r, c] = Some O) then (nXs, S nOs)
  else (nXs, nOs).

Definition count_X_and_Os (b : board) : nat * nat :=
  fold_left (λ acc r, fold_left (λ acc c, count_step b acc r c) range_N acc)
    range_N (0, 0).

Definition player (b : board) : Player :=
  let '(nXs, nOs) := count_X_and_Os b in
  if decide (nXs = nOs) then X else O.

Definition actions (b : board) : list action :=
  fold_left
    (λ possible r,
      fold_left
        (λ possible c,
          if decide (b.[r, c] = EMPTY) then possible ++ [(idx_Z r, idx_Z c)]
          else possible)
        range_N possible)
    range_N [].

(** Python's [l[i]] on a list of length [N]: a negative [i] counts from
    the end, and an index outside [-N, N) raises [IndexError]. *)
Definition idx_of_Z (i : Z) : option idx :=
  match i with 0%Z => Some I0 | 1%Z => Some I1 | 2%Z => Some I2 | _ => None end.

Definition py_idx (i : Z) : res idx :=
  match idx_of_Z (if (i <? 0)%Z then i + Z.of_nat N else i)%Z with
  | Some r => Ok r
  | None => raise IndexError
  end.

(** [raise ValidationError("Invalid move.")]: the module never defines
    or imports [ValidationError], so evaluating the name raises
    [NameError]. *)
Definition result (b : board) (a : action) : res board :=
  let '(r, c) := a in
  r' ← py_idx r;
  c' ← py_idx c;
  if decide (b.[r', c'] ≠ EMPTY) then raise (NameError "ValidationError")
  else Ok (set_cell b r' c' (Some (player b))).

(** ** The row-major enumeration of the cells *)

(** The pairs [(r, c)] in the order of the nested loops over [range(N)]. *)
Definition grid : list (idx * idx) := range_N ≫= (λ r, pair r <$> range_N).

Definition cells (b : board) : list cell := (λ rc, b.[rc.1, rc.2]) <$> grid.

Definition count_cell (v : cell) (b : board) : nat :=
  length (filter (λ x, x = v) (cells b)).

Definition idx_nat (i : idx) : nat := match i with I0 => 0 | I1 => 1 | I2 => 2 end.
Definition pos (r c : idx) : nat := N * idx_nat r + idx_nat c.

Definition action_of (rc : idx * idx) : action := (idx_Z rc.1, idx_Z rc.2).

(** ** Generic lemmas on the loops *)

Lemma fold_range_N_grid {A} (g : A → idx → idx → A) (a : A) :
  fold_left (λ acc r, fold_left (λ acc c, g acc r c) range_N acc) range_N a =
  fold_left (λ acc rc, g acc rc.1 rc.2) grid a.
Proof. reflexivity. Qed.

Lemma fold_left_append_filter {A B} (P : A → Prop) `{∀ x, Decision (P x)}
    (f : A → B) (l : list A) (acc : list B) :
  fold_left (λ p x, if decide (P x) then p ++ [f x] else p) l acc =
  acc ++ (f <$> filter P l).
Proof.
  revert acc. induction l as [|x l IH]; intros acc; simpl.
  - by rewrite app_nil_r.
  - rewrite filter_cons. case_decide; rewrite IH; simpl; [by rewrite <-app_assoc|done].
Qed.

Lemma filter_fmap_comm {A B} (P : B → Prop) `{∀ x, Decision (P x)} (f : A → B) (l : list A) :
  filter P (f <$> l) = f <$> filter (λ x, P (f x)) l.
Proof.
  induction l as [|x l IH]; [done|]. rewrite fmap_cons, !filter_cons.
  case_decide; by rewrite ?fmap_cons, IH.
Qed.

(** Overwriting one element changes the count of a predicate by the
    difference of the old and the new element. *)
Lemma length_filter_insert {A} (P : A → Prop) `{∀ x, Decision (P x)}
    (l : list A) (i : nat) (x y : A) :
  l !! i = Some x →
  length (filter P (<[i:=y]> l)) + (if decide (P x) then 1 else 0) =
  length (filter P l) + (if decide (P y) then 1 else 0).
Proof.
  revert i. induction l as [|z l IH]; intros [|i] Hi; simplify_eq/=.
  - rewrite !filter_cons. repeat case_decide; simpl; lia.
  - rewrite !filter_cons. specialize (IH i Hi). destruct (decide (P z)); simpl; lia.
Qed.

(** ** Cells *)

Lemma elem_of_grid (r c : idx) : (r, c) ∈ grid.
Proof. destruct r, c; cbv; repeat (first [by left | right]). Qed.

Lemma NoDup_grid : NoDup grid.
Proof. apply (bool_decide_unpack _). by vm_compute. Qed.

Lemma cells_lookup (b : board) (r c : idx) : cells b !! pos r c = Some b.[r, c].
Proof. by destruct r, c. Qed.

Lemma cell_at_set_cell_eq (b : board) (r c : idx) (v : cell) :
  (set_cell b r c v).[r, c] = v.
Proof. by destruct r, c. Qed.

Lemma cell_at_set_cell_ne (b : board) (r c r' c' : idx) (v : cell) :
  (r, c) ≠ (r', c') → (set_cell b r c v).[r', c'] = b.[r', c'].
Proof. intros Hne. destruct r, c, r', c'; simpl; congruence. Qed.

Lemma cells_set_cell (b : board) (r c : idx) (v : cell) :
  cells (set_cell b r c v) = <[pos r c := v]> (cells b).
Proof. by destruct b as [[] [] []], r, c. Qed.

#[export] Hint Rewrite cell_at_set_cell_eq cells_set_cell : py.

(** The counts after one cell is overwritten. *)
Lemma count_cell_set_cell (b : board) (r c : idx) (v w : cell) :
  count_cell v (set_cell b r c w) + (if decide (b.[r, c] = v) then 1 else 0) =
  count_cell v b + (if decide (w = v) then 1 else 0).
Proof.
  unfold count_cell. rewrite cells_set_cell.
  exact (length_filter_insert (λ x, x = v) _ _ _ w (cells_lookup b r c)).
Qed.

Lemma count_step_add (b : board) (nX nO : nat) (r c : idx) :
  count_step b (nX, nO) r c =
  (nX + (if decide (b.[r, c] = Some X) then 1 else 0),
   nO + (if decide (b.[r, c] = Some O) then 1 else 0)).
Proof. unfold count_step. repeat case_decide; simplify_eq; f_equal; lia. Qed.

Lemma count_X_and_Os_counts (b : board) :
  count_X_and_Os b = (count_cell (Some X) b, count_cell (Some O) b).
Proof.
  unfold count_X_and_Os, count_cell, cells. rewrite fold_range_N_grid.
  assert (∀ l nX nO, fold_left (λ acc rc, count_step b acc rc.1 rc.2) l (nX, nO) =
    (nX + length (filter (λ x, x = Some X) ((λ rc, b.[rc.1, rc.2]) <$> l)),
     nO + length (filter (λ x, x = Some O) ((λ rc, b.[rc.1, rc.2]) <$> l)))) as Hfold.
  { induction l as [|[r c] l IH]; intros nX nO; [simpl; f_equal; lia|].
    rewrite fmap_cons, !filter_cons. cbn [fold_left fst snd]. rewrite count_step_add, IH.
    repeat case_decide; simplify_eq/=; try congruence; f_equal;
      rewrite ?Nat.add_0_r, ?Nat.add_1_r, ?Nat.add_succ_r; reflexivity. }
  by rewrite Hfold.
Qed.

Lemma actions_filter (b : board) :
  actions b = action_of <$> filter (λ rc, b.[rc.1, rc.2] = EMPTY) grid.
Proof.
  unfold actions.
  rewrite (fold_range_N_grid (λ p r c,
    if decide (b.[r, c] = EMPTY) then p ++ [(idx_Z r, idx_Z c)] else p)).
  exact (fold_left_append_filter (λ rc, b.[rc.1, rc.2] = EMPTY) action_of grid []).
Qed.

#[export] Instance action_of_inj : Inj eq eq action_of.
Proof. intros [[] []] [[] []]; by inversion 1. Qed.

Lemma py_idx_idx_Z (r : idx) : py_idx (idx_Z r) = Ok r.
Proof. by destruct r. Qed.

Lemma idx_of_Z_Some (i : Z) (r : idx) : idx_of_Z i = Some r → i = idx_Z r.
Proof. unfold idx_of_Z. repeat case_match; by intros [= <-]. Qed.

Lemma py_idx_range (i : Z) : (-3 ≤ i < 3)%Z → ∃ r, py_idx i = Ok r.
Proof.
  intros Hi. unfold py_idx, N.
  destruct (Z.ltb_spec i 0).
  - assert (i = -3 ∨ i = -2 ∨ i = -1)%Z as [-> | [-> | ->]] by lia; eauto.
  - assert (i = 0 ∨ i = 1 ∨ i = 2)%Z as [-> | [-> | ->]] by lia; eauto.
Qed.

Lemma py_idx_IndexError (i : Z) : ¬ (-3 ≤ i < 3)%Z → py_idx i = raise IndexError.
Proof.
  intros Hi. unfold py_idx. destruct (idx_of_Z _) as [r|] eqn:E; [|done].
  apply idx_of_Z_Some in E. exfalso. unfold N in E. destruct r, (Z.ltb_spec i 0); simpl in *; lia.
Qed.

(** ** Properties of the board queries *)

Lemma elem_of_actions (b : board) (a : action) :
  a ∈ actions b ↔ ∃ r c, a = (idx_Z r, idx_Z c) ∧ b.[r, c] = EMPTY.
Proof.
  rewrite actions_filter, list_elem_of_fmap. split.
  - intros ([r c] & -> & Hin). apply list_elem_of_filter in Hin as [He _]. eauto.
  - intros (r & c & -> & He). exists (r, c). split; [done|].
    apply list_elem_of_filter. split; [done|apply elem_of_grid].
Qed.

Lemma NoDup_actions (b : board) : NoDup (actions b).
Proof.
  rewrite actions_filter. apply NoDup_fmap_2; [apply _|].
  apply NoDup_filter, NoDup_grid.
Qed.

Lemma length_actions (b : board) : length (actions b) = count_cell EMPTY b.
Proof.
  rewrite actions_filter, length_fmap. unfold count_cell, cells.
  rewrite filter_fmap_comm, length_fmap. f_equal. by apply list_filter_iff.
Qed.

Lemma player_X_iff (b : board) :
  player b = X ↔ count_cell (Some X) b = count_cell (Some O) b.
Proof. unfold player. rewrite count_X_and_Os_counts. by case_decide. Qed.

(** Every successful [result] is the assignment of the mover's mark to
    an empty cell named by the action, Python indexing applied. *)
Lemma result_Ok_inv (b b' : board) (a : action) :
  result b a = Ok b' →
  ∃ r c, py_idx a.1 = Ok r ∧ py_idx a.2 = Ok c ∧ b.[r, c] = EMPTY ∧
         b' = set_cell b r c (Some (player b)).
Proof.
  destruct a as [i j]. simpl.
  destruct (py_idx i) as [r|]; [|discriminate]. destruct (py_idx j) as [c|]; [|discriminate].
  simpl. case_decide as Hne; [discriminate|].
  intros [= <-]. eauto 10.
Qed.

Lemma result_empty_cell (b : board) (r c : idx) :
  b.[r, c] = EMPTY →
  result b (idx_Z r, idx_Z c) = Ok (set_cell b r c (Some (player b))).
Proof.
  intros He. simpl. rewrite !py_idx_idx_Z. simpl.
  case_decide; [contradiction|done].
Qed.

Lemma actions_result_filter (b : board) (r c : idx) (p : Player) :
  b.[r, c] = EMPTY →
  actions (set_cell b r c (Some p)) = filter (λ a', a' ≠ (idx_Z r, idx_Z c)) (actions b).
Proof.
  intros He. rewrite !actions_filter, filter_fmap_comm, list_filter_filter.
  f_equal. apply list_filter_iff. intros [r' c']. simpl.
  destruct (decide ((r, c) = (r', c'))) as [[= <- <-] | Hne].
  - rewrite cell_at_set_cell_eq. split; [done|]. intros [? _]. done.
  - rewrite cell_at_set_cell_ne by done. split; [|by intros [_ ?]].
    intros ?. split; [|done]. intros Heq. apply Hne.
    apply (inj action_of (r, c) (r', c')). done.
Qed.

Lemma py_idx_mod (i : Z) : (-3 ≤ i < 3)%Z → py_idx i = py_idx (i mod 3)%Z.
Proof.
  intros Hi. assert (i = -3 ∨ i = -2 ∨ i = -1 ∨ i = 0 ∨ i = 1 ∨ i = 2)%Z as Hc by lia.
  repeat destruct Hc as [-> | Hc]; [..|subst i]; reflexivity.
Qed.

(** Every cell holds [X], [O] or nothing. *)
Lemma count_cells_partition (l : list cell) :
  let cnt (v : cell) := length (filter (λ x, x = v) l) in
  cnt (Some X) + cnt (Some O) + cnt EMPTY = length l.
Proof.
  cbv zeta. induction l as [|x l IH]; [done|]. rewrite !filter_cons.
  destruct x as [[]|]; repeat case_decide; cbn [length]; try congruence; lia.
Qed.

(** ** Theorems *)

(** An example board: [X] in the top-left corner. *)
Definition x_corner_board : board :=
  Board (Row (Some X) EMPTY EMPTY) (Row EMPTY EMPTY EMPTY) (Row EMPTY EMPTY EMPTY).

(** C12: a move on an empty cell succeeds and returns a new board that
    holds the mark of [player board] in that cell and agrees with the
    input on every other cell. *)
Theorem result_legal_move (b : board) (r c : idx) :
  b.[r, c] = EMPTY →
  ∃ b', result b (idx_Z r, idx_Z c) = Ok b' ∧ b'.[r, c] = Some (player b) ∧
        ∀ r' c', (r', c') ≠ (r, c) → b'.[r', c'] = b.[r', c'].
Proof.
  intros He. eexists. split; [by apply result_empty_cell|]. split.
  - apply cell_at_set_cell_eq.
  - intros r' c' Hne. apply cell_at_set_cell_ne. congruence.
Qed.

Lemma result_legal_move_witness :
  initial_state.[I1, I1] = EMPTY ∧
  ∃ b', result initial_state (idx_Z I1, idx_Z I1) = Ok b' ∧
        b'.[I1, I1] = Some (player initial_state) ∧
        ∀ r' c', (r', c') ≠ (I1, I1) → b'.[r', c'] = initial_state.[r', c'].
Proof.
  assert (initial_state.[I1, I1] = EMPTY) as H by reflexivity.
  split; [exact H|]. exact (result_legal_move _ _ _ H).
Defined.

(** C13: a move on an occupied cell raises [NameError]: the source
    raises [ValidationError], a name it never defines or imports. *)
Theorem result_occupied (b : board) (r c : idx) :
  b.[r, c] ≠ EMPTY → result b (idx_Z r, idx_Z c) = raise (NameError "ValidationError").
Proof.
  intros Hne. simpl. rewrite !py_idx_idx_Z. simpl. by rewrite decide_True.
Qed.

Lemma result_occupied_witness :
  x_corner_board.[I0, I0] ≠ EMPTY ∧
  result x_corner_board (idx_Z I0, idx_Z I0) = raise (NameError "ValidationError").
Proof.
  assert (x_corner_board.[I0, I0] ≠ EMPTY) as H by discriminate.
  split; [exact H|]. exact (result_occupied _ _ _ H).
Defined.

(** C14: a coordinate outside [-3, 3) raises [IndexError]. *)
Theorem result_IndexError (b : board) (i j : Z) :
  ¬ (-3 ≤ i < 3)%Z ∨ ¬ (-3 ≤ j < 3)%Z → result b (i, j) = raise IndexError.
Proof.
  intros Hij. simpl. destruct (decide (-3 ≤ i < 3)%Z) as [Hi|Hi].
  - destruct Hij as [|Hj]; [done|]. destruct (py_idx_range i Hi) as [r ->]. simpl.
    rewrite (py_idx_IndexError j Hj). reflexivity.
  - rewrite (py_idx_IndexError i Hi). reflexivity.
Qed.

Lemma result_IndexError_witness :
  (¬ (-3 ≤ 3 < 3)%Z ∨ ¬ (-3 ≤ 0 < 3)%Z) ∧ result initial_state (3, 0)%Z = raise IndexError.
Proof.
  assert (¬ (-3 ≤ 3 < 3)%Z ∨ ¬ (-3 ≤ 0 < 3)%Z) as H by (left; lia).
  split; [exact H|]. exact (result_IndexError _ _ _ H).
Defined.

(** C15: a negative coordinate in [-3, 0) does not fail: Python's
    indexing wraps it around, so [result] plays at the coordinate
    modulo 3. *)
Theorem result_negative_index (b : board) (i j : Z) :
  (-3 ≤ i < 3)%Z → (-3 ≤ j < 3)%Z → result b (i, j) = result b (i mod 3, j mod 3)%Z.
Proof. intros Hi Hj. simpl. by rewrite (py_idx_mod i), (py_idx_mod j). Qed.

Lemma result_negative_index_witness :
  (-3 ≤ -1 < 3)%Z ∧ (-3 ≤ 0 < 3)%Z ∧
  result initial_state (-1, 0)%Z = result initial_state ((-1) mod 3, 0 mod 3)%Z.
Proof.
  assert (-3 ≤ -1 < 3)%Z as H1 by lia. assert (-3 ≤ 0 < 3)%Z as H2 by lia.
  split; [exact H1|]. split; [exact H2|]. exact (result_negative_index _ _ _ H1 H2).
Defined.

(** C17: the nested loops of [_count_X_and_Os] count exactly the cells
    holding [X] and those holding [O] (each a filter over the nine
    cells), and these two counts and the number of actions add up to
    the [N * N] cells of the board. *)
Theorem count_X_and_Os_total (b : board) :
  count_X_and_Os b = (count_cell (Some X) b, count_cell (Some O) b) ∧
  count_cell (Some X) b + count_cell (Some O) b + length (actions b) = N * N.
Proof.
  split; [apply count_X_and_Os_counts|]. rewrite length_actions.
  transitivity (length (cells b)); [exact (count_cells_partition (cells b))|].
  unfold cells. by rewrite length_fmap.
Qed.

(** A listed action succeeds, and the board after it lists the same
    actions but that one. *)
Lemma result_listed (b : board) (a : action) :
  a ∈ actions b →
  ∃ b', result b a = Ok b' ∧ actions b' = filter (λ a', a' ≠ a) (actions b).
Proof.
  intros (r & c & -> & He)%elem_of_actions. eexists. split.
  - by apply result_empty_cell.
  - by apply actions_result_filter.
Qed.

Lemma result_actions_length (b : board) (a : action) :
  a ∈ actions b →
  ∃ b', result b a = Ok b' ∧ length (actions b') = length (actions b) - 1.
Proof.
  intros Ha. destruct (result_listed b a Ha) as (b' & Hr & Hb').
  exists b'. split; [done|]. rewrite Hb'. apply length_filter_ne; [apply NoDup_actions|done].
Qed.

Lemma result_measure (b : board) (a : action) :
  a ∈ actions b → ∃ b', result b a = Ok b' ∧ length (actions b') < length (actions b).
Proof.
  intros Ha. destruct (result_actions_length b a Ha) as (b' & Hr & Hlen).
  exists b'. split; [done|]. rewrite Hlen.
  destruct (actions b) eqn:E; [by apply elem_of_nil in Ha|]. simpl. lia.
Qed.

(** C16: a listed action succeeds; afterwards it is no longer listed,
    the list is one shorter, and the other actions are still listed. *)
Theorem legal_move_actions (b : board) (a : action) :
  a ∈ actions b →
  ∃ b', result b a = Ok b' ∧ (a ∉ actions b') ∧
        length (actions b') = length (actions b) - 1 ∧
        ∀ a', a' ∈ actions b' ↔ a' ∈ actions b ∧ a' ≠ a.
Proof.
  intros Ha. destruct (result_listed b a Ha) as (b' & Hr & Hb').
  exists b'. split; [done|]. rewrite Hb'. split; [|split].
  - rewrite list_elem_of_filter. intros [? _]. done.
  - apply length_filter_ne; [apply NoDup_actions|done].
  - intros a'. rewrite list_elem_of_filter. tauto.
Qed.

Lemma legal_move_actions_witness :
  (1, 1)%Z ∈ actions initial_state ∧
  ∃ b', result initial_state (1, 1)%Z = Ok b' ∧ ((1, 1)%Z ∉ actions b') ∧
        length (actions b') = length (actions initial_state) - 1 ∧
        ∀ a', a' ∈ actions b' ↔ a' ∈ actions initial_state ∧ a' ≠ (1, 1)%Z.
Proof.
  assert ((1, 1)%Z ∈ actions initial_state) as H by (vm_compute; right; right; right; right; left).
  split; [exact H|]. exact (legal_move_actions _ _ H).
Defined.

(** Row-major order on actions. *)
Definition row_major_lt (a a' : action) : Prop :=
  (a.1 < a'.1 ∨ (a.1 = a'.1 ∧ a.2 < a'.2))%Z.

Lemma grid_sorted :
  StronglySorted (λ rc rc', row_major_lt (action_of rc) (action_of rc')) grid.
Proof.
  apply Sorted_StronglySorted; [intros [[] []] [[] []] [[] []]; unfold row_major_lt; simpl; lia|].
  cbn. repeat (apply Sorted_cons;
    [|first [apply HdRel_nil | apply HdRel_cons; unfold row_major_lt; simpl; lia]]).
  apply Sorted_nil.
Qed.

(** C19: [actions] lists the empty cells in strict row-major order, the
    order on which [minimax]'s tie-break depends. *)
Theorem actions_row_major (b : board) (i j : nat) (a a' : action) :
  i < j → actions b !! i = Some a → actions b !! j = Some a' → row_major_lt a a'.
Proof.
  rewrite actions_filter. intros Hij Hi Hj.
  eapply (StronglySorted_lookup row_major_lt); [|exact Hij|exact Hi|exact Hj].
  apply (StronglySorted_fmap action_of (λ rc rc', row_major_lt (action_of rc) (action_of rc')));
    [done|]. apply StronglySorted_filter, grid_sorted.
Qed.

Lemma actions_row_major_witness :
  0 < 1 ∧ actions initial_state !! 0 = Some (0, 0)%Z ∧ actions initial_state !! 1 = Some (0, 1)%Z ∧
  row_major_lt (0, 0)%Z (0, 1)%Z.
Proof.
  assert (0 < 1) as H1 by lia.
  assert (actions initial_state !! 0 = Some (0, 0)%Z) as H2 by reflexivity.
  assert (actions initial_state !! 1 = Some (0, 1)%Z) as H3 by reflexivity.
  split; [exact H1|]. split; [exact H2|]. split; [exact H3|].
  exact (actions_row_major _ _ _ _ _ H1 H2 H3).
Defined.
