(* ===== verification/Heap.v ===== *)
(** * Heap: the board as Python objects

    The functional model of [Board] treats a board as a value.  In
    Python a board is a list object holding references to three row
    list objects; [result] calls [copy.deepcopy] before it writes, and
    the specification (section 3) promises that the input board is
    never mutated, so that a caller may keep earlier boards.  This file
    models the objects: a heap of list objects at locations, Python's
    list indexing and item assignment on it, [copy.deepcopy] with its
    memo (which keeps the sharing inside the copied value), the
    display that builds [initial_state], [_count_X_and_Os] and
    [player] reading through references, and [result] as the module
    writes it.

    The theorems: on a board whose rows are distinct objects, the heap
    [result] computes the functional [Board.result], errors included;
    whatever the board, it never changes an object that existed before
    the call; [initial_state] builds a board with distinct rows.  A
    concrete evaluation backs a finding: a board whose rows are one
    shared object (as [[[None] * 3] * 3] builds) keeps the sharing
    through [deepcopy], so one move marks a whole column. *)

From stdpp Require Import gmap.
From S2P Require Import Prelude Board.

(** ** Objects and the heap *)

Definition loc := nat.

(** The values a board holds: a cell ([None], ["X"] or ["O"], which
    are immutable and compared by value) or a reference to a list. *)
Inductive pyval :=
  | VCell (v : cell)
  | VRef (l : loc).

#[export] Instance pyval_eq_dec : EqDecision pyval.
Proof. solve_decision. Defined.

(** The list objects, and the next unused location. *)
Record heap := Heap { lists : gmap loc (list pyval); next : loc }.

Definition alloc (h : heap) (vs : list pyval) : heap * loc :=
  (Heap (<[next h := vs]> (lists h)) (S (next h)), next h).

Definition store (h : heap) (l : loc) (vs : list pyval) : heap :=
  Heap (<[l := vs]> (lists h)) (next h).

(** Python's index normalisation: a negative index counts from the end;
    what is still outside [[0, len)] raises [IndexError]. *)
Definition py_norm_index (len : nat) (i : Z) : option nat :=
  let j := if (i <? 0)%Z then (i + Z.of_nat len)%Z else i in
  if decide (0 ≤ j < Z.of_nat len)%Z then Some (Z.to_nat j) else None.

(** [v[i]]: subscripting anything but a list raises [TypeError]. *)
Definition subscript (h : heap) (v : pyval) (i : Z) : res pyval :=
  match v with
  | VCell _ => raise TypeError
  | VRef l =>
      match lists h !! l with
      | None => raise TypeError
      | Some vs =>
          match py_norm_index (length vs) i with
          | Some k => py_getitem vs k
          | None => raise IndexError
          end
      end
  end.

(** [v[i] = x] *)
Definition setitem (h : heap) (v : pyval) (i : Z) (x : pyval) : res heap :=
  match v with
  | VCell _ => raise TypeError
  | VRef l =>
      match lists h !! l with
      | None => raise TypeError
      | Some vs =>
          match py_norm_index (length vs) i with
          | Some k => Ok (store h l (<[k := x]> vs))
          | None => raise IndexError
          end
      end
  end.

(** ** [copy.deepcopy] *)

Abbreviation memo := (gmap loc loc).

(** [_deepcopy_list]: the copies of the elements, in order, threading
    the heap and the memo. *)
Fixpoint copy_list (dc : heap → memo → pyval → res (heap * memo * pyval))
    (h : heap) (m : memo) (xs : list pyval) : res (heap * memo * list pyval) :=
  match xs with
  | [] => Ok (h, m, [])
  | x :: xs' =>
      '(h1, m1, y) ← dc h m x;
      '(h2, m2, ys) ← copy_list dc h1 m1 xs';
      Ok (h2, m2, y :: ys)
  end.

(** [deepcopy(x, memo)]: an atom is returned as it is; a list already
    copied is returned from the memo; any other list is allocated
    empty, entered in the memo, and filled with the copies of its
    elements.  [fuel] bounds the nesting depth, as Python's recursion
    limit does. *)
Fixpoint deepcopy (fuel : nat) (h : heap) (m : memo) (v : pyval) : res (heap * memo * pyval) :=
  match v with
  | VCell c => Ok (h, m, VCell c)
  | VRef l =>
      match m !! l with
      | Some l' => Ok (h, m, VRef l')
      | None =>
          match fuel with
          | 0 => raise RecursionError
          | S fuel' =>
              match lists h !! l with
              | None => raise TypeError
              | Some xs =>
                  let '(h1, y) := alloc h [] in
                  '(h2, m2, ys) ← copy_list (deepcopy fuel') h1 (<[l := y]> m) xs;
                  Ok (store h2 y ys, m2, VRef y)
              end
          end
      end
  end.

(** Python's default recursion limit is 1000 frames and [deepcopy]
    spends two per level; a board has two levels. *)
Definition deepcopy_fuel : nat := 500.

(** ** The module's functions on the heap *)

(** [initial_state]: the list display allocates three fresh rows and
    the outer list. *)
Definition initial_state_heap (h : heap) : heap * pyval :=
  let empty_row := [VCell EMPTY; VCell EMPTY; VCell EMPTY] in
  let '(h0, l0) := alloc h empty_row in
  let '(h1, l1) := alloc h0 empty_row in
  let '(h2, l2) := alloc h1 empty_row in
  let '(h3, l) := alloc h2 [VRef l0; VRef l1; VRef l2] in
  (h3, VRef l).

(** [_count_X_and_Os]: [board[r][c] == X] holds only of the cell "X". *)
Definition count_heap (h : heap) (bv : pyval) : res (nat * nat) :=
  foldM (λ acc r,
    foldM (λ acc c,
      row ← subscript h bv (idx_Z r);
      x ← subscript h row (idx_Z c);
      Ok (match x with
          | VCell (Some X) => (acc.1 + 1, acc.2)
          | VCell (Some O) => (acc.1, acc.2 + 1)
          | _ => acc
          end)) range_N acc) range_N (0, 0).

Definition player_heap (h : heap) (bv : pyval) : res Player :=
  '(nX, nO) ← count_heap h bv;
  Ok (if decide (nX = nO) then X else O).

(** [result]: the check [board[r][c] != EMPTY] (true of anything but
    [None]), the deep copy, then [result[r][c] = player(board)], whose
    right-hand side Python evaluates first. *)
Definition result_heap (h : heap) (bv : pyval) (a : action) : res (heap * pyval) :=
  let '(r, c) := a in
  row ← subscript h bv r;
  x ← subscript h row c;
  if decide (x ≠ VCell EMPTY) then raise (NameError "ValidationError")
  else
    '(h1, _, copy) ← deepcopy deepcopy_fuel h ∅ bv;
    p ← player_heap h1 bv;
    row' ← subscript h1 copy r;
    h2 ← setitem h1 row' c (VCell (Some p));
    Ok (h2, copy).

(** ** Reading a board back *)

Definition row_of (vs : list pyval) : option row :=
  match vs with [VCell a; VCell b; VCell c] => Some (Row a b c) | _ => None end.

(** The outer list and the locations of its three rows. *)
Definition row_locs (h : heap) (bv : pyval) : option (list loc) :=
  match bv with
  | VRef l =>
      match lists h !! l with
      | Some [VRef l0; VRef l1; VRef l2] => Some [l0; l1; l2]
      | _ => None
      end
  | VCell _ => None
  end.

Definition read_board (h : heap) (bv : pyval) : option board :=
  ls ← row_locs h bv;
  match ls with
  | [l0; l1; l2] =>
      r0 ← lists h !! l0 ≫= row_of; r1 ← lists h !! l1 ≫= row_of; r2 ← lists h !! l2 ≫= row_of;
      Some (Board r0 r1 r2)
  | _ => None
  end.

(** The rows are three distinct objects. *)
Definition distinct_rows (h : heap) (bv : pyval) : Prop :=
  match row_locs h bv with Some ls => NoDup ls | None => False end.

(** Every allocated location is below [next]. *)
Definition heap_wf (h : heap) : Prop := ∀ l, is_Some (lists h !! l) → l < next h.

Definition empty_heap : heap := Heap ∅ 0.

(** [[[None] * 3] * 3], the usual slip when building an empty board:
    one row object, referenced three times. *)
Definition shared_rows_state : heap * pyval :=
  let '(h1, l0) := alloc empty_heap [VCell EMPTY; VCell EMPTY; VCell EMPTY] in
  let '(h2, l) := alloc h1 [VRef l0; VRef l0; VRef l0] in
  (h2, VRef l).

(** The empty board with an [X] in every cell of the middle column. *)
Definition column_X_board : board :=
  Board (Row EMPTY (Some X) EMPTY) (Row EMPTY (Some X) EMPTY) (Row EMPTY (Some X) EMPTY).

(** ** Lemmas *)

Ltac heap_lookup :=
  repeat first [rewrite lookup_insert_eq | rewrite lookup_insert_ne by lia].

Definition sel3 {A} (k : idx) (x0 x1 x2 : A) : A :=
  match k with I0 => x0 | I1 => x1 | I2 => x2 end.

Definition row_vals (rw : row) : list pyval := [VCell (col0 rw); VCell (col1 rw); VCell (col2 rw)].

(** A board laid out at [l], its rows at [l0], [l1] and [l2]. *)
Definition board_locs (h : heap) (l l0 l1 l2 : loc) (b : board) : Prop :=
  lists h !! l = Some [VRef l0; VRef l1; VRef l2] ∧
  lists h !! l0 = Some (row_vals (row0 b)) ∧ lists h !! l1 = Some (row_vals (row1 b)) ∧
  lists h !! l2 = Some (row_vals (row2 b)).

Lemma py_norm_index_3 (i : Z) :
  py_norm_index 3 i = match py_idx i with Ok r => Some (idx_nat r) | Raise _ => None end.
Proof.
  destruct (decide (-3 ≤ i < 3)%Z) as [Hi|Hi].
  - assert (i = -3 ∨ i = -2 ∨ i = -1 ∨ i = 0 ∨ i = 1 ∨ i = 2)%Z as Hc by lia.
    repeat destruct Hc as [-> | Hc]; [..|subst i]; reflexivity.
  - rewrite (py_idx_IndexError i Hi). unfold py_norm_index.
    case_decide; [|done]. destruct (Z.ltb_spec i 0); lia.
Qed.

Lemma py_idx_Raise (i : Z) (e : exn) : py_idx i = Raise e → e = IndexError.
Proof. unfold py_idx. case_match; congruence. Qed.

Lemma subscript_3 (h : heap) (l : loc) (x0 x1 x2 : pyval) (i : Z) :
  lists h !! l = Some [x0; x1; x2] →
  subscript h (VRef l) i = (k ← py_idx i; Ok (sel3 k x0 x1 x2)).
Proof.
  intros Hl. unfold subscript. rewrite Hl. simpl length. rewrite py_norm_index_3.
  destruct (py_idx i) as [[]|e] eqn:E; [reflexivity..|]. by rewrite (py_idx_Raise i e E).
Qed.

Lemma setitem_3 (h : heap) (l : loc) (x0 x1 x2 x : pyval) (i : Z) :
  lists h !! l = Some [x0; x1; x2] →
  setitem h (VRef l) i x = (k ← py_idx i; Ok (store h l (<[idx_nat k := x]> [x0; x1; x2]))).
Proof.
  intros Hl. unfold setitem. rewrite Hl. simpl length. rewrite py_norm_index_3.
  destruct (py_idx i) as [[]|e] eqn:E; [reflexivity..|]. by rewrite (py_idx_Raise i e E).
Qed.

Lemma board_locs_row (h : heap) (l l0 l1 l2 : loc) (b : board) (k : idx) :
  board_locs h l l0 l1 l2 b → lists h !! sel3 k l0 l1 l2 = Some (row_vals (row_at b k)).
Proof. intros (_ & H0 & H1 & H2). by destruct k. Qed.

Lemma sel3_row_vals (b : board) (r c : idx) :
  sel3 c (VCell (col0 (row_at b r))) (VCell (col1 (row_at b r))) (VCell (col2 (row_at b r))) =
  VCell b.[r, c].
Proof. by destruct c. Qed.

Lemma board_locs_weaken (h h' : heap) (l l0 l1 l2 : loc) (b : board) :
  lists h ⊆ lists h' → board_locs h l l0 l1 l2 b → board_locs h' l l0 l1 l2 b.
Proof.
  intros Hsub (H & H0 & H1 & H2).
  repeat split; by eapply lookup_weaken.
Qed.

Lemma board_locs_read (h : heap) (l l0 l1 l2 : loc) (b : board) :
  board_locs h l l0 l1 l2 b → read_board h (VRef l) = Some b ∧ row_locs h (VRef l) = Some [l0; l1; l2].
Proof.
  intros (H & H0 & H1 & H2). unfold read_board, row_locs. rewrite H. simpl.
  rewrite H0, H1, H2. by destruct b as [[] [] []].
Qed.

Lemma row_of_Some (vs : list pyval) (rw : row) : row_of vs = Some rw → vs = row_vals rw.
Proof. unfold row_of. repeat case_match; intros; simplify_eq; done. Qed.

Lemma read_board_inv (h : heap) (bv : pyval) (b : board) :
  read_board h bv = Some b →
  ∃ l l0 l1 l2, bv = VRef l ∧ row_locs h bv = Some [l0; l1; l2] ∧ board_locs h l l0 l1 l2 b.
Proof.
  unfold read_board, row_locs. destruct bv as [|l]; [done|].
  destruct (lists h !! l) as [vs|] eqn:Hl; [|done].
  do 4 (destruct vs as [|[|?] vs]; try done). simpl.
  destruct (lists h !! l0) as [vs0|] eqn:H0; simpl; [|discriminate].
  destruct (row_of vs0) eqn:R0; simpl; [|discriminate].
  destruct (lists h !! l1) as [vs1|] eqn:H1; simpl; [|discriminate].
  destruct (row_of vs1) eqn:R1; simpl; [|discriminate].
  destruct (lists h !! l2) as [vs2|] eqn:H2; simpl; [|discriminate].
  destruct (row_of vs2) eqn:R2; simpl; [|discriminate]. intros [= <-].
  apply row_of_Some in R0, R1, R2. subst.
  do 4 eexists. split; [done|]. split; [done|]. repeat split; done.
Qed.

Lemma sel3_VRef (k : idx) (l0 l1 l2 : loc) : sel3 k (VRef l0) (VRef l1) (VRef l2) = VRef (sel3 k l0 l1 l2).
Proof. by destruct k. Qed.

Lemma count_match_step (b : board) (acc : nat * nat) (r c : idx) :
  match VCell b.[r, c] with
  | VCell (Some X) => (acc.1 + 1, acc.2)
  | VCell (Some O) => (acc.1, acc.2 + 1)
  | _ => acc
  end = count_step b acc r c.
Proof.
  destruct acc as [nX nO]. unfold count_step.
  destruct b.[r, c] as [[]|]; simpl; repeat case_decide; try congruence; f_equal; lia.
Qed.

(** Reading [board[r][c]] through the references. *)
Lemma subscript_board {A} (h : heap) (l l0 l1 l2 : loc) (b : board) (r c : Z) (k : pyval → res A) :
  board_locs h l l0 l1 l2 b →
  (row ← subscript h (VRef l) r; x ← subscript h row c; k x) =
  (kr ← py_idx r; kc ← py_idx c; k (VCell b.[kr, kc])).
Proof.
  intros Hb. rewrite (subscript_3 _ _ _ _ _ _ (proj1 Hb)).
  destruct (py_idx r) as [kr|e]; cbn [mbind res_bind]; [|done]. rewrite sel3_VRef.
  rewrite (subscript_3 _ _ _ _ _ _ (board_locs_row _ _ _ _ _ _ kr Hb)).
  destruct (py_idx c) as [kc|e]; cbn [mbind res_bind]; [|done]. by rewrite sel3_row_vals.
Qed.

Lemma count_heap_board (h : heap) (l l0 l1 l2 : loc) (b : board) :
  board_locs h l l0 l1 l2 b → count_heap h (VRef l) = Ok (count_X_and_Os b).
Proof.
  intros Hb. unfold count_heap, count_X_and_Os. apply foldM_pure. intros acc r _.
  apply foldM_pure. intros acc' c _.
  rewrite (subscript_board h l l0 l1 l2 b (idx_Z r) (idx_Z c) _ Hb), !py_idx_idx_Z.
  cbn [mbind res_bind]. f_equal. apply count_match_step.
Qed.

Lemma player_heap_board (h : heap) (l l0 l1 l2 : loc) (b : board) :
  board_locs h l l0 l1 l2 b → player_heap h (VRef l) = Ok (player b).
Proof.
  intros Hb. unfold player_heap, player. rewrite (count_heap_board h l l0 l1 l2 b Hb).
  by destruct (count_X_and_Os b).
Qed.

(** ** [deepcopy] of a board *)

Lemma deepcopy_unfold (fuel : nat) (h : heap) (m : memo) (l : loc) (xs : list pyval) :
  m !! l = None → lists h !! l = Some xs →
  deepcopy (S fuel) h m (VRef l) =
  ('(h2, m2, ys) ← copy_list (deepcopy fuel) (alloc h []).1 (<[l := next h]> m) xs;
   Ok (store h2 (next h) ys, m2, VRef (next h))).
Proof. intros Hm Hl. simpl. by rewrite Hm, Hl. Qed.

Lemma deepcopy_VCell (fuel : nat) (h : heap) (m : memo) (c : cell) :
  deepcopy fuel h m (VCell c) = Ok (h, m, VCell c).
Proof. by destruct fuel. Qed.

(** A row of cells is copied into one fresh list. *)
Lemma deepcopy_row (fuel : nat) (h : heap) (m : memo) (l : loc) (rw : row) :
  m !! l = None → lists h !! l = Some (row_vals rw) →
  deepcopy (S fuel) h m (VRef l) =
  Ok (Heap (<[next h := row_vals rw]> (lists h)) (S (next h)), <[l := next h]> m, VRef (next h)).
Proof.
  intros Hm Hl. rewrite (deepcopy_unfold _ _ _ _ _ Hm Hl).
  simpl copy_list. repeat (rewrite deepcopy_VCell; cbn [mbind res_bind]).
  unfold store. simpl. by rewrite insert_insert_eq.
Qed.

(** The heap after copying a board laid out below [next h]. *)
Definition copy_heap (h : heap) (b : board) : heap :=
  let n := next h in
  Heap (<[n := [VRef (S n); VRef (S (S n)); VRef (S (S (S n)))]]>
         (<[S (S (S n)) := row_vals (row2 b)]> (<[S (S n) := row_vals (row1 b)]>
           (<[S n := row_vals (row0 b)]> (<[n := []]> (lists h))))))
       (S (S (S (S n)))).

Lemma board_locs_ne (h : heap) (l l0 l1 l2 : loc) (b : board) :
  board_locs h l l0 l1 l2 b → l ≠ l0 ∧ l ≠ l1 ∧ l ≠ l2.
Proof. intros (H & H0 & H1 & H2). unfold row_vals in *. split_and!; intros ->; congruence. Qed.

Lemma heap_wf_lt (h : heap) (l : loc) (vs : list pyval) :
  heap_wf h → lists h !! l = Some vs → l < next h.
Proof. intros Hwf Hl. apply Hwf. by eexists. Qed.

Lemma deepcopy_board (fuel : nat) (h : heap) (l l0 l1 l2 : loc) (b : board) :
  heap_wf h → board_locs h l l0 l1 l2 b → NoDup [l0; l1; l2] →
  ∃ m, deepcopy (S (S fuel)) h ∅ (VRef l) = Ok (copy_heap h b, m, VRef (next h)).
Proof.
  intros Hwf Hb Hnd. pose proof Hb as (H & H0 & H1 & H2).
  destruct (board_locs_ne _ _ _ _ _ _ Hb) as (N0 & N1 & N2).
  pose proof (heap_wf_lt _ _ _ Hwf H0). pose proof (heap_wf_lt _ _ _ Hwf H1).
  pose proof (heap_wf_lt _ _ _ Hwf H2).
  apply NoDup_cons in Hnd as [Hn0 (Hn1 & _)%NoDup_cons].
  rewrite (deepcopy_unfold _ _ _ _ _ (lookup_empty l) H). cbn [copy_list].
  rewrite (deepcopy_row _ _ _ l0 (row0 b)); cycle 1.
  { by rewrite lookup_insert_ne, lookup_empty. }
  { simpl. by heap_lookup. }
  cbn [mbind res_bind]. rewrite (deepcopy_row _ _ _ l1 (row1 b)); cycle 1.
  { rewrite !lookup_insert_ne, lookup_empty; try done; set_solver. }
  { simpl. by heap_lookup. }
  cbn [mbind res_bind]. rewrite (deepcopy_row _ _ _ l2 (row2 b)); cycle 1.
  { rewrite !lookup_insert_ne, lookup_empty; try done; set_solver. }
  { simpl. by heap_lookup. }
  cbn [mbind res_bind copy_list]. by eexists.
Qed.

Lemma fresh_lookup (h : heap) (j : loc) : heap_wf h → next h ≤ j → lists h !! j = None.
Proof. intros Hwf Hj. destruct (lists h !! j) eqn:E; [|done]. pose proof (Hwf j ltac:(by eexists)). lia. Qed.

Lemma copy_heap_sub (h : heap) (b : board) : heap_wf h → lists h ⊆ lists (copy_heap h b).
Proof.
  intros Hwf. apply map_subseteq_spec. intros j vs Hj. pose proof (heap_wf_lt _ _ _ Hwf Hj).
  unfold copy_heap. simpl. by heap_lookup.
Qed.

Lemma copy_heap_locs (h : heap) (b : board) :
  board_locs (copy_heap h b) (next h) (S (next h)) (S (S (next h))) (S (S (S (next h)))) b.
Proof. unfold board_locs, copy_heap. simpl. split_and!; by heap_lookup. Qed.

Lemma copy_heap_wf (h : heap) (b : board) : heap_wf h → heap_wf (copy_heap h b).
Proof.
  intros Hwf j. unfold copy_heap. simpl. rewrite !lookup_insert_is_Some.
  intros Hj. repeat destruct Hj as [-> | [_ Hj]]; try lia. pose proof (Hwf j Hj). lia.
Qed.

(** Writing the mark into the copied row [kr]. *)
Definition mark_copy (h : heap) (b : board) (kr kc : idx) (v : cell) : heap :=
  let n := next h in
  store (copy_heap h b) (sel3 kr (S n) (S (S n)) (S (S (S n))))
    (<[idx_nat kc := VCell v]> (row_vals (row_at b kr))).

Lemma mark_copy_locs (h : heap) (b : board) (kr kc : idx) (v : cell) :
  board_locs (mark_copy h b kr kc v) (next h) (S (next h)) (S (S (next h))) (S (S (S (next h))))
    (set_cell b kr kc v).
Proof.
  unfold board_locs, mark_copy, store, copy_heap. simpl.
  destruct kr, kc; simpl; split_and!; heap_lookup; destruct b as [[] [] []]; reflexivity.
Qed.

Lemma mark_copy_sub (h : heap) (b : board) (kr kc : idx) (v : cell) :
  heap_wf h → lists h ⊆ lists (mark_copy h b kr kc v).
Proof.
  intros Hwf. unfold mark_copy, store. simpl. apply insert_subseteq_r; [|by apply copy_heap_sub].
  apply fresh_lookup; [done|]. destruct kr; simpl; lia.
Qed.

Lemma store_wf (h : heap) (l : loc) (vs : list pyval) :
  heap_wf h → is_Some (lists h !! l) → heap_wf (store h l vs).
Proof.
  intros Hwf Hl j. unfold store. simpl. rewrite lookup_insert_is_Some.
  intros [<- | [_ Hj]]; by apply Hwf.
Qed.

Lemma mark_copy_wf (h : heap) (b : board) (kr kc : idx) (v : cell) :
  heap_wf h → heap_wf (mark_copy h b kr kc v).
Proof.
  intros Hwf. apply store_wf; [by apply copy_heap_wf|].
  unfold copy_heap. destruct kr; simpl; heap_lookup; by eexists.
Qed.

Lemma fresh_rows_distinct (n : loc) : NoDup [S n; S (S n); S (S (S n))].
Proof.
  apply NoDup_cons; split; [rewrite !elem_of_cons, elem_of_nil; lia|].
  apply NoDup_cons; split; [rewrite elem_of_cons, elem_of_nil; lia|]. apply NoDup_singleton.
Qed.

(** The heap [result] on a board laid out with distinct rows. *)
Lemma result_heap_board (h : heap) (l l0 l1 l2 : loc) (b : board) (r c : Z) :
  heap_wf h → board_locs h l l0 l1 l2 b → NoDup [l0; l1; l2] →
  result_heap h (VRef l) (r, c) =
  (kr ← py_idx r; kc ← py_idx c;
   if decide (b.[kr, kc] ≠ EMPTY) then raise (NameError "ValidationError")
   else Ok (mark_copy h b kr kc (Some (player b)), VRef (next h))).
Proof.
  intros Hwf Hb Hnd. unfold result_heap. rewrite (subscript_board _ _ _ _ _ _ _ _ _ Hb).
  destruct (py_idx r) as [kr|e] eqn:Er; cbn [mbind res_bind]; [|done].
  destruct (py_idx c) as [kc|e] eqn:Ec; cbn [mbind res_bind]; [|done].
  destruct (decide (b.[kr, kc] ≠ EMPTY)) as [Hne|Hne].
  { rewrite decide_True by congruence. done. }
  rewrite decide_False by (intros Hc; apply Hne; congruence).
  destruct (deepcopy_board 498 h l l0 l1 l2 b Hwf Hb Hnd) as [m Hdc].
  change deepcopy_fuel with (S (S 498)). rewrite Hdc. cbn [mbind res_bind].
  pose proof (copy_heap_locs h b) as Hc.
  rewrite (player_heap_board _ _ _ _ _ _ (board_locs_weaken _ _ _ _ _ _ _ (copy_heap_sub h b Hwf) Hb)).
  cbn [mbind res_bind]. rewrite (subscript_3 _ _ _ _ _ _ (proj1 Hc)), Er. cbn [mbind res_bind].
  rewrite sel3_VRef, (setitem_3 _ _ _ _ _ _ _ (board_locs_row _ _ _ _ _ _ kr Hc)), Ec.
  by destruct kr.
Qed.

(** ** [deepcopy] only allocates *)

(** A value that is a cell or a reference to an object allocated at or
    after [n0]. *)
Definition fresh_val (n0 : loc) (v : pyval) : Prop :=
  match v with VCell _ => True | VRef y => n0 ≤ y end.

(** What a deep copy started on [h0] keeps: the heap is well formed,
    the objects below [n0 = next h0] are untouched, the memo maps to
    new objects, and new objects hold only cells and new references. *)
Definition copy_inv (h0 h : heap) (m : memo) : Prop :=
  heap_wf h ∧ next h0 ≤ next h ∧ (∀ j, j < next h0 → lists h !! j = lists h0 !! j) ∧
  (∀ k y, m !! k = Some y → next h0 ≤ y) ∧
  (∀ y ys, next h0 ≤ y → lists h !! y = Some ys → Forall (fresh_val (next h0)) ys).

Lemma copy_inv_init (h : heap) : heap_wf h → copy_inv h h ∅.
Proof.
  intros Hwf. split_and!; [done|done|done| |].
  - intros k y. by rewrite lookup_empty.
  - intros y ys Hy Hl. pose proof (heap_wf_lt _ _ _ Hwf Hl). lia.
Qed.

Section CopyList.
Variable h0 : heap.
Variable dc : heap → memo → pyval → res (heap * memo * pyval).
Hypothesis dc_inv : ∀ h m v h' m' v', copy_inv h0 h m → dc h m v = Ok (h', m', v') →
  copy_inv h0 h' m' ∧ fresh_val (next h0) v' ∧ next h ≤ next h'.

Lemma copy_list_inv (xs : list pyval) : ∀ h m h' m' ys,
  copy_inv h0 h m → copy_list dc h m xs = Ok (h', m', ys) →
  copy_inv h0 h' m' ∧ Forall (fresh_val (next h0)) ys ∧ next h ≤ next h'.
Proof.
  induction xs as [|x xs IH]; intros h m h' m' ys Hi; simpl.
  { intros [= <- <- <-]. split_and!; [done|constructor|lia]. }
  intros ([[h1 m1] y] & Hx & Hk)%bind_Ok. destruct (dc_inv _ _ _ _ _ _ Hi Hx) as (Hi1 & Hy & Hn1).
  apply bind_Ok in Hk as ([[h2 m2] ys'] & Hxs & [= <- <- <-]).
  destruct (IH _ _ _ _ _ Hi1 Hxs) as (Hi2 & Hys & Hn2). split_and!; [done|by constructor|lia].
Qed.
End CopyList.

Lemma deepcopy_inv (h0 : heap) (fuel : nat) : ∀ h m v h' m' v',
  copy_inv h0 h m → deepcopy fuel h m v = Ok (h', m', v') →
  copy_inv h0 h' m' ∧ fresh_val (next h0) v' ∧ next h ≤ next h'.
Proof.
  induction fuel as [|fuel IH]; intros h m v h' m' v' Hi.
  - destruct v as [c|l]; simpl; [intros [= <- <- <-]; split_and!; [done|done|lia]|].
    destruct (m !! l) as [y|] eqn:Hm; [|done]. intros [= <- <- <-].
    split_and!; [done| |lia]. simpl. by apply (proj1 (proj2 (proj2 (proj2 Hi))) l).
  - destruct v as [c|l]; simpl; [intros [= <- <- <-]; split_and!; [done|done|lia]|].
    destruct (m !! l) as [y|] eqn:Hm.
    { intros [= <- <- <-]. split_and!; [done| |lia]. simpl. by apply (proj1 (proj2 (proj2 (proj2 Hi))) l). }
    destruct (lists h !! l) as [xs|] eqn:Hl; [|done].
    destruct Hi as (Hwf & Hn & Hold & Hmemo & Hnew).
    assert (copy_inv h0 (Heap (<[next h := []]> (lists h)) (S (next h))) (<[l := next h]> m)) as Hi1.
    { split_and!; simpl.
      - intros j. simpl. rewrite lookup_insert_is_Some. intros [<- | [_ Hj]]; [lia|]. pose proof (Hwf j Hj). lia.
      - lia.
      - intros j Hj. rewrite lookup_insert_ne by lia. by apply Hold.
      - intros k y. rewrite lookup_insert_Some. intros [[_ <-] | [_ Hk]]; [lia|]. by eapply Hmemo.
      - intros y ys Hy. rewrite lookup_insert_Some. intros [[_ <-] | [_ Hys]]; [constructor|]. by eapply Hnew. }
    intros ([[h2 m2] ys] & Hxs & [= <- <- <-])%bind_Ok.
    destruct (copy_list_inv h0 (deepcopy fuel) IH xs _ _ _ _ _ Hi1 Hxs) as ((Hwf2 & Hn2 & Hold2 & Hmemo2 & Hnew2) & Hys & Hnext).
    simpl in Hnext. unfold copy_inv. split_and!; unfold store; simpl; [| lia | | done | | lia | lia].
    + intros j. simpl. rewrite lookup_insert_is_Some. intros [<- | [_ Hj]]; [lia|]. by apply Hwf2.
    + intros j Hj. rewrite lookup_insert_ne by lia. by apply Hold2.
    + intros y ys' Hy. rewrite lookup_insert_Some. intros [[<- <-] | [_ Hys']]; [done|]. by eapply Hnew2.
Qed.

Lemma subscript_Ok (h : heap) (v : pyval) (i : Z) (x : pyval) :
  subscript h v i = Ok x → ∃ l vs, v = VRef l ∧ lists h !! l = Some vs ∧ x ∈ vs.
Proof.
  unfold subscript, py_getitem. intros Hs. repeat case_match; simplify_eq.
  eexists _, _. split_and!; [done|done|]. by eapply list_elem_of_lookup_2.
Qed.

Lemma setitem_Ok (h h' : heap) (v : pyval) (i : Z) (x : pyval) :
  setitem h v i x = Ok h' → ∃ l vs, v = VRef l ∧ lists h !! l = Some vs ∧ ∃ vs', h' = store h l vs'.
Proof.
  unfold setitem. intros Hs. repeat case_match; simplify_eq. do 2 eexists. split_and!; [done|done|]. by eexists.
Qed.

Lemma result_heap_spec (h : heap) (bv : pyval) (b : board) (a : action) :
  heap_wf h → read_board h bv = Some b → distinct_rows h bv →
  match result b a with
  | Ok b' => ∃ h' bv', result_heap h bv a = Ok (h', bv') ∧ read_board h' bv' = Some b' ∧
               distinct_rows h' bv' ∧ heap_wf h' ∧ lists h ⊆ lists h'
  | Raise e => result_heap h bv a = Raise e
  end.
Proof.
  intros Hwf Hr Hd. destruct (read_board_inv h bv b Hr) as (l & l0 & l1 & l2 & -> & Hrl & Hb).
  unfold distinct_rows in Hd. rewrite Hrl in Hd. destruct a as [r c].
  rewrite (result_heap_board h l l0 l1 l2 b r c Hwf Hb Hd). simpl.
  destruct (py_idx r) as [kr|e]; simpl; [|done]. destruct (py_idx c) as [kc|e]; simpl; [|done].
  case_decide; [done|].
  destruct (board_locs_read _ _ _ _ _ _ (mark_copy_locs h b kr kc (Some (player b)))) as [Hr' Hl'].
  eexists _, _. split; [done|]. split; [done|]. split; [unfold distinct_rows; rewrite Hl'; apply fresh_rows_distinct|].
  split; [by apply mark_copy_wf | by apply mark_copy_sub].
Qed.

Lemma result_heap_preserves (h h' : heap) (bv bv' : pyval) (a : action) :
  heap_wf h → result_heap h bv a = Ok (h', bv') → lists h ⊆ lists h' ∧ heap_wf h'.
Proof.
  intros Hwf. destruct a as [r c]. unfold result_heap.
  intros (row & Hrow & H1)%bind_Ok. apply bind_Ok in H1 as (x & Hx & H2).
  case_decide; [done|].
  apply bind_Ok in H2 as ([[h1 m1] cp] & Hdc & H3). cbv beta iota in H3.
  apply bind_Ok in H3 as (p & Hp & H4). apply bind_Ok in H4 as (row' & Hrow' & H5).
  apply bind_Ok in H5 as (h2 & Hset & [= <- <-]).
  destruct (deepcopy_inv h _ _ _ _ _ _ _ (copy_inv_init h Hwf) Hdc)
    as ((Hwf1 & _ & Hold & _ & Hnew) & Hcp & _).
  destruct (subscript_Ok _ _ _ _ Hrow') as (y & ys & -> & Hy & Hin).
  pose proof (proj1 (Forall_forall _ _) (Hnew y ys Hcp Hy) row' Hin) as Hrf.
  destruct (setitem_Ok _ _ _ _ _ Hset) as (z & zs & -> & Hz & (zs' & ->)). simpl in Hrf.
  split.
  - apply map_subseteq_spec. intros j vs Hj. pose proof (heap_wf_lt _ _ _ Hwf Hj).
    unfold store. simpl. rewrite lookup_insert_ne by lia. by rewrite Hold.
  - apply store_wf; [done|by eexists].
Qed.

(** The heap [initial_state_heap] builds. *)
Definition init_heap (h : heap) : heap :=
  let n := next h in
  Heap (<[S (S (S n)) := [VRef n; VRef (S n); VRef (S (S n))]]>
         (<[S (S n) := row_vals (Row EMPTY EMPTY EMPTY)]> (<[S n := row_vals (Row EMPTY EMPTY EMPTY)]>
           (<[n := row_vals (Row EMPTY EMPTY EMPTY)]> (lists h)))))
       (S (S (S (S n)))).

Lemma initial_state_heap_eq (h : heap) :
  initial_state_heap h = (init_heap h, VRef (S (S (S (next h))))).
Proof. reflexivity. Qed.

Lemma initial_state_heap_spec (h : heap) :
  heap_wf h →
  heap_wf (initial_state_heap h).1 ∧ read_board (initial_state_heap h).1 (initial_state_heap h).2 = Some initial_state ∧
  distinct_rows (initial_state_heap h).1 (initial_state_heap h).2 ∧ lists h ⊆ lists (initial_state_heap h).1.
Proof.
  intros Hwf. rewrite initial_state_heap_eq. simpl fst; simpl snd.
  assert (board_locs (init_heap h) (S (S (S (next h)))) (next h) (S (next h)) (S (S (next h))) initial_state) as Hb.
  { unfold board_locs, init_heap. simpl. split_and!; by heap_lookup. }
  destruct (board_locs_read _ _ _ _ _ _ Hb) as [Hr Hl]. split_and!.
  - intros j. unfold init_heap. simpl. rewrite !lookup_insert_is_Some. intros Hj.
    repeat destruct Hj as [<- | [_ Hj]]; try lia. pose proof (Hwf j Hj). lia.
  - exact Hr.
  - unfold distinct_rows. rewrite Hl.
    apply NoDup_cons; split; [rewrite !elem_of_cons, elem_of_nil; lia|].
    apply NoDup_cons; split; [rewrite elem_of_cons, elem_of_nil; lia|]. apply NoDup_singleton.
  - apply map_subseteq_spec. intros j vs Hj. pose proof (heap_wf_lt _ _ _ Hwf Hj).
    unfold init_heap. simpl. by heap_lookup.
Qed.

(** ** Theorems *)

(** C24 (refinement): on a well-formed heap, the objects of a board
    whose three rows are distinct lists make [result] (with its deep
    copy, item assignment and [player] read through references)
    compute the functional [Board.result]: the same exception, or a
    new board object that reads back as the new board, again with
    distinct rows, in a well-formed heap that keeps every old object. *)
Theorem result_heap_refines (h : heap) (bv : pyval) (b : board) (a : action) :
  heap_wf h → read_board h bv = Some b → distinct_rows h bv →
  match result b a with
  | Ok b' => ∃ h' bv', result_heap h bv a = Ok (h', bv') ∧ read_board h' bv' = Some b' ∧
               distinct_rows h' bv' ∧ heap_wf h' ∧ lists h ⊆ lists h'
  | Raise e => result_heap h bv a = Raise e
  end.
Proof. apply result_heap_spec. Qed.

(** C25 (safety): whatever the board object (rows shared or not, of
    any shape), a successful [result] changes no object that existed
    before the call, and the heap stays well formed: the input board
    is never mutated, as the specification promises. *)
Theorem result_heap_no_mutation (h h' : heap) (bv bv' : pyval) (a : action) :
  heap_wf h → result_heap h bv a = Ok (h', bv') → lists h ⊆ lists h' ∧ heap_wf h'.
Proof. apply result_heap_preserves. Qed.

Lemma empty_heap_wf : heap_wf empty_heap.
Proof. intros j. simpl. rewrite lookup_empty. by intros []. Qed.

Lemma result_heap_refines_witness :
  heap_wf (initial_state_heap empty_heap).1 ∧
  read_board (initial_state_heap empty_heap).1 (initial_state_heap empty_heap).2 = Some initial_state ∧
  distinct_rows (initial_state_heap empty_heap).1 (initial_state_heap empty_heap).2 ∧
  match result initial_state (1, 2)%Z with
  | Ok b' => ∃ h' bv', result_heap (initial_state_heap empty_heap).1 (initial_state_heap empty_heap).2 (1, 2)%Z = Ok (h', bv') ∧
               read_board h' bv' = Some b' ∧ distinct_rows h' bv' ∧ heap_wf h' ∧
               lists (initial_state_heap empty_heap).1 ⊆ lists h'
  | Raise e => result_heap (initial_state_heap empty_heap).1 (initial_state_heap empty_heap).2 (1, 2)%Z = Raise e
  end.
Proof.
  destruct (initial_state_heap_spec empty_heap empty_heap_wf) as (Hwf & Hr & Hd & _).
  split; [exact Hwf|]. split; [exact Hr|]. split; [exact Hd|].
  exact (result_heap_refines _ _ _ (1, 2)%Z Hwf Hr Hd).
Defined.

(** The board objects after [result] on [shared_rows_state] at (0,1). *)
Definition shared_rows_result : heap * pyval :=
  match result_heap shared_rows_state.1 shared_rows_state.2 (0, 1)%Z with
  | Ok hv => hv
  | Raise _ => (empty_heap, VCell EMPTY)
  end.

Lemma result_heap_no_mutation_witness :
  heap_wf shared_rows_state.1 ∧
  result_heap shared_rows_state.1 shared_rows_state.2 (0, 1)%Z =
    Ok (shared_rows_result.1, shared_rows_result.2) ∧
  lists shared_rows_state.1 ⊆ lists shared_rows_result.1 ∧ heap_wf shared_rows_result.1.
Proof.
  assert (heap_wf shared_rows_state.1) as Hwf.
  { intros j. simpl. rewrite !lookup_insert_is_Some, lookup_empty.
    intros Hj. repeat destruct Hj as [<- | [_ Hj]]; [lia|lia|by destruct Hj]. }
  assert (result_heap shared_rows_state.1 shared_rows_state.2 (0, 1)%Z =
    Ok (shared_rows_result.1, shared_rows_result.2)) as Hres by (vm_compute; reflexivity).
  split; [exact Hwf|]. split; [exact Hres|]. exact (result_heap_no_mutation _ _ _ _ _ Hwf Hres).
Defined.

(** The heap behind the finding on shared rows (line 77): [deepcopy]
    keeps the sharing inside the copied value: on the
    board [[[None] * 3] * 3], which reads as the empty board but holds
    one row object three times, [result] at (0,1) marks the whole
    middle column, where the functional [result] marks one cell. *)
Lemma shared_rows_mark_column :
  row_locs shared_rows_state.1 shared_rows_state.2 = Some [0; 0; 0] ∧
  read_board shared_rows_state.1 shared_rows_state.2 = Some initial_state ∧
  read_board shared_rows_result.1 shared_rows_result.2 = Some column_X_board ∧
  result initial_state (0, 1)%Z = Ok (set_cell initial_state I0 I1 (Some X)) ∧
  set_cell initial_state I0 I1 (Some X) ≠ column_X_board.
Proof. vm_compute. split_and!; try reflexivity. discriminate. Qed.

(** C26: [initial_state()] on any well-formed heap builds a new board
    object that reads as the empty board, whose three rows are distinct
    objects, and leaves every existing object as it was. *)
Theorem initial_state_heap_fresh (h : heap) :
  heap_wf h →
  heap_wf (initial_state_heap h).1 ∧
  read_board (initial_state_heap h).1 (initial_state_heap h).2 = Some initial_state ∧
  distinct_rows (initial_state_heap h).1 (initial_state_heap h).2 ∧
  lists h ⊆ lists (initial_state_heap h).1.
Proof. apply initial_state_heap_spec. Qed.

Lemma initial_state_heap_fresh_witness :
  heap_wf empty_heap ∧
  heap_wf (initial_state_heap empty_heap).1 ∧
  read_board (initial_state_heap empty_heap).1 (initial_state_heap empty_heap).2 = Some initial_state ∧
  distinct_rows (initial_state_heap empty_heap).1 (initial_state_heap empty_heap).2 ∧
  lists empty_heap ⊆ lists (initial_state_heap empty_heap).1.
Proof. split; [exact empty_heap_wf|]. exact (initial_state_heap_fresh _ empty_heap_wf). Defined.
