(* ===== verification/Evaluation.v ===== *)
(** * Evaluation: [winner], [terminal] and [utility]

    Models lines 82-125 of [src/tictactoe/tictactoe.py].  [winner]
    scans the rows, then the columns, then the two diagonals, and
    returns [board[i][j]] of the first line whose three cells compare
    equal with Python's chained [==].  [spec_winner] is the function
    the specification describes (the first line of three identical
    non-empty cells); [winner_eq_spec_winner] shows where the two
    agree, and [winner_all_empty_line] where they do not. *)

From S2P Require Import Prelude Board.

(** [a == b == c] is [a == b and b == c]. *)
Definition eq3 (a b c : cell) : bool := bool_decide (a = b) && bool_decide (b = c).

Definition winner (b : board) : option Player :=
  match first_return (λ r, if eq3 b.[r, I0] b.[r, I1] b.[r, I2]
                           then Some b.[r, I0] else None) range_N with
  | Some w => w
  | None =>
    match first_return (λ c, if eq3 b.[I0, c] b.[I1, c] b.[I2, c]
                             then Some b.[I0, c] else None) range_N with
    | Some w => w
    | None =>
      if eq3 b.[I0, I0] b.[I1, I1] b.[I2, I2] then b.[I0, I0]
      else if eq3 b.[I0, I2] b.[I1, I1] b.[I2, I0] then b.[I0, I2]
      else None
    end
  end.

(** [winner(board) or len(actions(board)) == 0], used as a condition:
    a player's string is truthy. *)
Definition terminal (b : board) : bool :=
  match winner b with
  | Some _ => true
  | None => Nat.eqb (length (actions b)) 0
  end.

Definition utility (b : board) : Z :=
  match winner b with
  | Some X => 1
  | Some O => -1
  | None => 0
  end.

(** ** Lines *)

(** A line is three cells, in the scan order of [winner]. *)
Definition line : Type := (idx * idx) * (idx * idx) * (idx * idx).

Definition lines : list line :=
  ((λ r, ((r, I0), (r, I1), (r, I2))) <$> range_N) ++
  ((λ c, ((I0, c), (I1, c), (I2, c))) <$> range_N) ++
  [((I0, I0), (I1, I1), (I2, I2)); ((I0, I2), (I1, I1), (I2, I0))].

Definition at_ (b : board) (p : idx * idx) : cell := b.[p.1, p.2].

(** The body of each of [winner]'s tests, on a line. *)
Definition line_return (b : board) (l : line) : option cell :=
  let '(p, q, r) := l in
  if eq3 (at_ b p) (at_ b q) (at_ b r) then Some (at_ b p) else None.

(** The line belongs to a player: three identical non-empty cells. *)
Definition line_winner (b : board) (l : line) : option Player :=
  let '(p, q, r) := l in
  match at_ b p, at_ b q, at_ b r with
  | Some x, Some y, Some z =>
      if bool_decide (x = y ∧ y = z) then Some x else None
  | _, _, _ => None
  end.

(** The function the specification describes. *)
Definition spec_winner (b : board) : option Player := first_return (line_winner b) lines.

Definition line_empty (b : board) (l : line) : Prop :=
  let '(p, q, r) := l in at_ b p = EMPTY ∧ at_ b q = EMPTY ∧ at_ b r = EMPTY.

#[export] Instance line_empty_dec (b : board) (l : line) : Decision (line_empty b l).
Proof. destruct l as [[p q] r]. unfold line_empty. apply _. Defined.

(** ** Lemmas *)

(** [winner] returns the first cell of the first line whose cells
    compare equal, empty lines included. *)
Lemma winner_lines (b : board) :
  winner b = match first_return (line_return b) lines with Some w => w | None => None end.
Proof.
  unfold winner, lines, line_return, at_. simpl.
  repeat destruct (eq3 _ _ _); reflexivity.
Qed.

Lemma line_return_line_winner (b : board) (l : line) :
  ¬ line_empty b l → line_return b l = Some <$> line_winner b l.
Proof.
  destruct l as [[p q] r]. unfold line_empty, line_return, line_winner, eq3.
  destruct (at_ b p) as [[]|], (at_ b q) as [[]|], (at_ b r) as [[]|];
    simpl; intros; try reflexivity; tauto.
Qed.

Lemma line_return_Some_Some (b : board) (l : line) (p : Player) :
  line_return b l = Some (Some p) → line_winner b l = Some p.
Proof.
  destruct l as [[x y] z]. unfold line_return, line_winner, eq3.
  destruct (at_ b x) as [[]|], (at_ b y) as [[]|], (at_ b z) as [[]|];
    simpl; congruence.
Qed.

Lemma utility_bounds (b : board) : (-1 ≤ utility b ≤ 1)%Z.
Proof. unfold utility. destruct (winner b) as [[]|]; lia. Qed.

#[export] Hint Resolve utility_bounds : py.

(** ** Theorems *)

(** A full board where no player owns a line. *)
Definition draw_board : board :=
  Board (Row (Some X) (Some O) (Some X)) (Row (Some X) (Some O) (Some O))
        (Row (Some O) (Some X) (Some X)).

(** [X] owns the top row; [O] has two marks in the middle row. *)
Definition x_top_board : board :=
  Board (Row (Some X) (Some X) (Some X)) (Row (Some O) (Some O) EMPTY) (Row EMPTY EMPTY EMPTY).

(** [X] owns the bottom row, the top row is empty. *)
Definition x_bottom_board : board :=
  Board (Row EMPTY EMPTY EMPTY) (Row (Some O) (Some O) EMPTY) (Row (Some X) (Some X) (Some X)).

Lemma first_return_line_return (b : board) :
  (∀ l, l ∈ lines → ¬ line_empty b l) →
  first_return (line_return b) lines = Some <$> spec_winner b.
Proof.
  intros Hne. apply first_return_fmap. intros l Hl. by apply line_return_line_winner, Hne.
Qed.

(** C8: [winner] agrees with the specification's winner (the first
    line, in scan order, of three identical non-empty cells) on every
    board where no line is entirely empty. *)
Theorem winner_eq_spec_winner (b : board) :
  (∀ l, l ∈ lines → ¬ line_empty b l) → winner b = spec_winner b.
Proof.
  intros Hne. rewrite winner_lines, first_return_line_return by done.
  by destruct (spec_winner b).
Qed.

Lemma winner_eq_spec_winner_witness :
  (∀ l, l ∈ lines → ¬ line_empty draw_board l) ∧ winner draw_board = spec_winner draw_board.
Proof.
  assert (∀ l, l ∈ lines → ¬ line_empty draw_board l) as H.
  { intros l Hl. repeat (apply elem_of_cons in Hl as [-> | Hl]; [vm_compute; intros [? _]; discriminate|]).
    by apply elem_of_nil in Hl. }
  split; [exact H|]. exact (winner_eq_spec_winner _ H).
Defined.

(** C9: whatever player [winner] returns owns a line: three of its
    marks in a row, column or diagonal. *)
Theorem winner_sound (b : board) (p : Player) :
  winner b = Some p → ∃ l, l ∈ lines ∧ line_winner b l = Some p.
Proof.
  rewrite winner_lines. destruct (first_return _ _) as [w|] eqn:E; [|discriminate].
  intros ->. apply first_return_Some in E as (l & Hl & E).
  exists l. split; [done|]. by apply line_return_Some_Some.
Qed.

(** C10: an empty top row stops the scan: [board[0][0] == board[0][1] ==
    board[0][2]] holds and [winner] returns [board[0][0]], which is
    [None], whatever the rest of the board holds. *)
Theorem winner_empty_top_row (b : board) :
  row0 b = Row EMPTY EMPTY EMPTY → winner b = None.
Proof. destruct b as [r0 r1 r2]. simpl. intros ->. reflexivity. Qed.

Lemma line_empty_actions (b : board) (l : line) : line_empty b l → actions b ≠ [].
Proof.
  destruct l as [[[r c] q] s]. intros (He & _) Hnil.
  assert ((idx_Z r, idx_Z c) ∈ actions b) as Hin.
  { apply elem_of_actions. eauto. }
  rewrite Hnil in Hin. by apply elem_of_nil in Hin.
Qed.

(** A line owned by a player that [winner] does not report is hidden
    by an entirely empty line. *)
Lemma hidden_win_empty_line (b : board) (p : Player) :
  spec_winner b = Some p → winner b = None → ∃ l, l ∈ lines ∧ line_empty b l.
Proof.
  intros Hs Hw. destruct (decide (Exists (line_empty b) lines)) as [Hex|Hnex].
  { by apply Exists_exists in Hex. }
  exfalso. rewrite winner_lines, first_return_line_return, Hs in Hw; [done|].
  intros l Hl He. apply Hnex, Exists_exists. eauto.
Qed.

Lemma terminal_None_actions (b : board) : winner b = None → actions b ≠ [] → terminal b = false.
Proof.
  intros Hw Hne. unfold terminal. rewrite Hw. apply Nat.eqb_neq.
  intros Hl. by apply Hne, length_zero_iff_nil.
Qed.

(** C11: a full board on which no player owns a line is terminal, with
    utility 0 (a draw). *)
Theorem full_board_draw (b : board) :
  actions b = [] → spec_winner b = None → terminal b = true ∧ utility b = 0%Z.
Proof.
  intros Hfull Hspec.
  assert (winner b = None) as Hw.
  { rewrite winner_lines, first_return_line_return, Hspec; [done|]. intros l _ He.
    by apply (line_empty_actions b l). }
  unfold terminal, utility. rewrite Hw, Hfull. done.
Qed.

Lemma winner_sound_witness :
  winner x_top_board = Some X ∧ ∃ l, l ∈ lines ∧ line_winner x_top_board l = Some X.
Proof.
  assert (winner x_top_board = Some X) as H by reflexivity.
  split; [exact H|]. exact (winner_sound _ _ H).
Defined.

Lemma winner_empty_top_row_witness :
  row0 x_bottom_board = Row EMPTY EMPTY EMPTY ∧ winner x_bottom_board = None.
Proof.
  assert (row0 x_bottom_board = Row EMPTY EMPTY EMPTY) as H by reflexivity.
  split; [exact H|]. exact (winner_empty_top_row _ H).
Defined.

Lemma full_board_draw_witness :
  actions draw_board = [] ∧ spec_winner draw_board = None ∧
  terminal draw_board = true ∧ utility draw_board = 0%Z.
Proof.
  assert (actions draw_board = []) as H1 by (vm_compute; reflexivity).
  assert (spec_winner draw_board = None) as H2 by (vm_compute; reflexivity).
  split; [exact H1|]. split; [exact H2|]. exact (full_board_draw _ H1 H2).
Defined.

(** A board where [X] owns the top row and no line is entirely empty. *)
Definition x_top_full_lines_board : board :=
  Board (Row (Some X) (Some X) (Some X)) (Row (Some O) (Some O) EMPTY) (Row (Some O) EMPTY EMPTY).

(** C18: when a player owns a line and no line is entirely empty, the
    board is terminal and its utility is not 0: [winner] reports the
    win as soon as the line is completed, even with empty cells left. *)
Theorem owned_line_terminal (b : board) (l : line) (p : Player) :
  l ∈ lines → line_winner b l = Some p → (∀ l', l' ∈ lines → ¬ line_empty b l') →
  terminal b = true ∧ utility b ≠ 0%Z.
Proof.
  intros Hl Hp Hne.
  destruct (spec_winner b) as [q|] eqn:Hq.
  - assert (winner b = Some q) as Hw.
    { by rewrite winner_lines, first_return_line_return, Hq. }
    unfold terminal, utility. rewrite Hw. split; [done|]. by destruct q.
  - exfalso. apply first_return_None with (x := l) in Hq; [congruence|done].
Qed.

Lemma owned_line_terminal_witness :
  ((I0, I0), (I0, I1), (I0, I2)) ∈ lines ∧
  line_winner x_top_full_lines_board ((I0, I0), (I0, I1), (I0, I2)) = Some X ∧
  (∀ l', l' ∈ lines → ¬ line_empty x_top_full_lines_board l') ∧
  terminal x_top_full_lines_board = true ∧ utility x_top_full_lines_board ≠ 0%Z.
Proof.
  assert (((I0, I0), (I0, I1), (I0, I2)) ∈ lines) as H1 by (vm_compute; left).
  assert (line_winner x_top_full_lines_board ((I0, I0), (I0, I1), (I0, I2)) = Some X)
    as H2 by reflexivity.
  assert (∀ l', l' ∈ lines → ¬ line_empty x_top_full_lines_board l') as H3.
  { intros l Hl. repeat (apply elem_of_cons in Hl as [-> | Hl]; [vm_compute; intros [? _]; discriminate|]).
    by apply elem_of_nil in Hl. }
  split; [exact H1|]. split; [exact H2|]. split; [exact H3|].
  exact (owned_line_terminal _ _ _ H1 H2 H3).
Defined.

