(* ===== verification/Search.v ===== *)
(** * Search: [_max_value], [_min_value] and [minimax]

    Models lines 128-181 of [src/tictactoe/tictactoe.py].  The search
    calls the board functions [player], [actions], [result],
    [terminal] and [utility] and nothing else; the type class
    [GameEngine] is that interface, and the search is written once
    against it, in the section [Search].  Python's recursion becomes
    structural recursion on a [fuel] argument; running out of it raises
    [RecursionError], as exceeding Python's recursion limit does.

    The theorems of this file are proved against the interface and the
    laws of [GameEngineLaws]: the values are finite and lie in
    [[-1, 1]] once the fuel exceeds the measure of the state; more fuel
    gives the same result; [minimax] returns [None] exactly on terminal
    states and otherwise the first action, in the order of [actions],
    whose value is optimal for the player to move; and on states where
    the players alternate, the values are those of the player-driven
    game value [game_value]. *)

From S2P Require Import Prelude Board.

(** What the search needs from the game. *)
Class GameEngine (St Act : Type) := {
  ge_player : St → Player;
  ge_actions : St → list Act;
  ge_result : St → Act → res St;
  ge_terminal : St → bool;
  ge_utility : St → Z;
}.

(** The laws the board functions satisfy and the search relies on: a
    non-terminal state has a move, every listed move succeeds and
    decreases a measure, and utilities lie in [[-1, 1]]. *)
Class GameEngineLaws (St Act : Type) `{!GameEngine St Act} := {
  ge_measure : St → nat;
  ge_terminal_actions s : ge_terminal s = false → ge_actions s ≠ [];
  ge_result_actions s a :
    a ∈ ge_actions s → ∃ s', ge_result s a = Ok s' ∧ ge_measure s' < ge_measure s;
  ge_utility_bounds s : (-1 ≤ ge_utility s ≤ 1)%Z;
}.

Section Search.
Context {St Act : Type} `{!GameEngine St Act}.

(** [_max_value] and [_min_value]: [v] starts at [float("-inf")]
    (resp. [float("inf")]) and is updated with [max(v, _min_value(
    result(board, action)))] (resp. [min]) for each action. *)
Fixpoint max_value (fuel : nat) (s : St) : res num :=
  match fuel with
  | 0 => raise RecursionError
  | S fuel' =>
      if ge_terminal s then Ok (Int (ge_utility s))
      else foldM (λ v a, w ← (s' ← ge_result s a; min_value fuel' s'); Ok (py_max2 v w))
             (ge_actions s) NegInf
  end
with min_value (fuel : nat) (s : St) : res num :=
  match fuel with
  | 0 => raise RecursionError
  | S fuel' =>
      if ge_terminal s then Ok (Int (ge_utility s))
      else foldM (λ v a, w ← (s' ← ge_result s a; max_value fuel' s'); Ok (py_min2 v w))
             (ge_actions s) PosInf
  end.

(** [helper_func]: [_max_value] for [O], [_min_value] for [X]. *)
Definition helper_func (fuel : nat) (p : Player) : St → res num :=
  if decide (p = O) then max_value fuel else min_value fuel.

(** [opt_func]: [min] for [O], [max] for [X]. *)
Definition opt_func (p : Player) : list num → res num :=
  if decide (p = O) then py_min else py_max.

Definition minimax (fuel : nat) (s : St) : res (option Act) :=
  if ge_terminal s then Ok None
  else
    let possible_actions := ge_actions s in
    let current_player := ge_player s in
    values ← mapM (λ a, s' ← ge_result s a; helper_func fuel current_player s')
               possible_actions;
    v ← opt_func current_player values;
    i ← py_index v values;
    a ← py_getitem possible_actions i;
    Ok (Some a).
End Search.

(** ** The search against the interface *)

Section SearchLaws.
Context {St Act : Type} `{!GameEngine St Act} `{!GameEngineLaws St Act}.

(** The value of a state for the minimizing (resp. maximizing) reply. *)
Definition child_min (fuel : nat) (s : St) (a : Act) : res num :=
  s' ← ge_result s a; min_value fuel s'.
Definition child_max (fuel : nat) (s : St) (a : Act) : res num :=
  s' ← ge_result s a; max_value fuel s'.

Lemma max_value_S (fuel : nat) (s : St) :
  max_value (S fuel) s =
  if ge_terminal s then Ok (Int (ge_utility s))
  else ws ← mapM (child_min fuel s) (ge_actions s); Ok (fold_left py_max2 ws NegInf).
Proof. simpl. destruct (ge_terminal s); [done|]. apply foldM_mapM. Qed.

Lemma min_value_S (fuel : nat) (s : St) :
  min_value (S fuel) s =
  if ge_terminal s then Ok (Int (ge_utility s))
  else ws ← mapM (child_max fuel s) (ge_actions s); Ok (fold_left py_min2 ws PosInf).
Proof. simpl. destruct (ge_terminal s); [done|]. apply foldM_mapM. Qed.

Definition bounded_int (v : num) : Prop := ∃ z, v = Int z ∧ (-1 ≤ z ≤ 1)%Z.

Lemma bounded_int_max (x y : num) : bounded_int x → bounded_int y → bounded_int (py_max2 x y).
Proof.
  intros (a & -> & Ha) (b & -> & Hb). rewrite py_max2_Int.
  exists (Z.max a b). split; [done|lia].
Qed.

Lemma bounded_int_min (x y : num) : bounded_int x → bounded_int y → bounded_int (py_min2 x y).
Proof.
  intros (a & -> & Ha) (b & -> & Hb). rewrite py_min2_Int.
  exists (Z.min a b). split; [done|lia].
Qed.

(** Folding from an infinity over a non-empty list keeps any property
    of the elements that [max] (resp. [min]) preserves. *)
Lemma fold_max_invariant (P : num → Prop) (ws : list num) :
  (∀ x y, P x → P y → P (py_max2 x y)) →
  ws ≠ [] → Forall P ws → P (fold_left py_max2 ws NegInf).
Proof.
  intros HP. destruct ws as [|w ws]; [done|]. intros _ Hall.
  apply Forall_cons in Hall as [Hw Hall]. simpl. rewrite py_max2_NegInf_l.
  by apply (fold_left_invariant P P).
Qed.

Lemma fold_min_invariant (P : num → Prop) (ws : list num) :
  (∀ x y, P x → P y → P (py_min2 x y)) →
  ws ≠ [] → Forall P ws → P (fold_left py_min2 ws PosInf).
Proof.
  intros HP. destruct ws as [|w ws]; [done|]. intros _ Hall.
  apply Forall_cons in Hall as [Hw Hall]. simpl. rewrite py_min2_PosInf_l.
  by apply (fold_left_invariant P P).
Qed.

Lemma mapM_nonempty {B} (f : Act → res B) (l : list Act) (ws : list B) :
  l ≠ [] → mapM f l = Ok ws → ws ≠ [].
Proof. intros Hl Hws ->. apply mapM_Ok in Hws. inversion Hws; subst. done. Qed.

(** Enough fuel: both values are integers in [[-1, 1]]. *)
Lemma values_total (fuel : nat) :
  ∀ s, ge_measure s < fuel →
    (∃ v, max_value fuel s = Ok v ∧ bounded_int v) ∧
    (∃ v, min_value fuel s = Ok v ∧ bounded_int v).
Proof.
  induction fuel as [|fuel IH]; intros s Hs; [lia|].
  rewrite max_value_S, min_value_S. destruct (ge_terminal s) eqn:Ht.
  { split; eexists; (split; [done|]); eexists; split; [done| |done|]; apply ge_utility_bounds. }
  pose proof (ge_terminal_actions s Ht) as Hne.
  assert (∀ a, a ∈ ge_actions s → ∃ s', ge_result s a = Ok s' ∧ ge_measure s' < fuel) as Hch.
  { intros a Ha. destruct (ge_result_actions s a Ha) as (s' & ? & ?). exists s'. split; [done|lia]. }
  split.
  - destruct (mapM_Ok_Forall (child_min fuel s) bounded_int (ge_actions s)) as (ws & Hws & Hb).
    { intros a Ha. destruct (Hch a Ha) as (s' & Hr & Hm). unfold child_min. rewrite Hr.
      apply (IH s' Hm). }
    rewrite Hws. eexists. split; [done|]. apply fold_max_invariant; [apply bounded_int_max| |done].
    by eapply mapM_nonempty.
  - destruct (mapM_Ok_Forall (child_max fuel s) bounded_int (ge_actions s)) as (ws & Hws & Hb).
    { intros a Ha. destruct (Hch a Ha) as (s' & Hr & Hm). unfold child_max. rewrite Hr.
      apply (IH s' Hm). }
    rewrite Hws. eexists. split; [done|]. apply fold_min_invariant; [apply bounded_int_min| |done].
    by eapply mapM_nonempty.
Qed.

(** One more level of fuel changes nothing that has been computed. *)
Lemma values_fuel_S (fuel : nat) :
  ∀ s v, (max_value fuel s = Ok v → max_value (S fuel) s = Ok v) ∧
         (min_value fuel s = Ok v → min_value (S fuel) s = Ok v).
Proof.
  induction fuel as [|fuel IH]; intros s v; [done|].
  rewrite !max_value_S, !min_value_S. destruct (ge_terminal s); [done|].
  split.
  - destruct (mapM (child_min fuel s) _) as [ws|] eqn:Hws; simpl; [|done].
    intros <-. erewrite (mapM_Ok_mono (child_min fuel s)); [done| |done].
    intros a w _. unfold child_min. destruct (ge_result s a); [|done]. apply IH.
  - destruct (mapM (child_max fuel s) _) as [ws|] eqn:Hws; simpl; [|done].
    intros <-. erewrite (mapM_Ok_mono (child_max fuel s)); [done| |done].
    intros a w _. unfold child_max. destruct (ge_result s a); [|done]. apply IH.
Qed.

(** The value [minimax] computes for an action. *)
Definition child (fuel : nat) (s : St) (a : Act) : res num :=
  s' ← ge_result s a; helper_func fuel (ge_player s) s'.

(** [w] is no better than [v] for player [p]. *)
Definition no_better (p : Player) (w v : num) : Prop :=
  match p with X => num_ltb v w = false | O => num_ltb w v = false end.

Lemma mapM_length {B} (f : Act → res B) (l : list Act) (k : list B) :
  mapM f l = Ok k → length k = length l.
Proof. intros H. apply mapM_Ok, Forall2_length in H. done. Qed.

Lemma opt_func_Ok (p : Player) (vs : list num) (v : num) :
  opt_func p vs = Ok v → v ∈ vs ∧ ∀ w, w ∈ vs → no_better p w v.
Proof.
  unfold opt_func, no_better. destruct p; simpl.
  - intros Hv. by apply py_max_Ok in Hv.
  - intros Hv. by apply py_min_Ok in Hv.
Qed.

Lemma opt_func_nonempty (p : Player) (vs : list num) :
  vs ≠ [] → ∃ v, opt_func p vs = Ok v.
Proof. destruct vs; [done|]. unfold opt_func. case_decide; simpl; eauto. Qed.

Lemma minimax_eq (fuel : nat) (s : St) :
  minimax fuel s =
  if ge_terminal s then Ok None
  else vs ← mapM (child fuel s) (ge_actions s);
       v ← opt_func (ge_player s) vs;
       i ← py_index v vs;
       a ← py_getitem (ge_actions s) i;
       Ok (Some a).
Proof. reflexivity. Qed.

Lemma minimax_Some_inv (fuel : nat) (s : St) (a : Act) :
  minimax fuel s = Ok (Some a) →
  ∃ vs v i, mapM (child fuel s) (ge_actions s) = Ok vs ∧
    opt_func (ge_player s) vs = Ok v ∧ py_index v vs = Ok i ∧ ge_actions s !! i = Some a.
Proof.
  rewrite minimax_eq. destruct (ge_terminal s); [done|].
  destruct (mapM _ _) as [vs|] eqn:Hvs; simpl; [|done].
  destruct (opt_func _ vs) as [v|] eqn:Hv; simpl; [|done].
  destruct (py_index v vs) as [i|] eqn:Hi; simpl; [|done].
  unfold py_getitem. destruct (ge_actions s !! i) eqn:Ha; simpl; [|done].
  intros [= <-]. exists vs, v, i. done.
Qed.

(** With enough fuel, [minimax] returns [None] on a terminal state and
    one of the listed actions on any other; it never raises. *)
Theorem minimax_total (fuel : nat) (s : St) :
  ge_measure s < fuel →
  (ge_terminal s = true ∧ minimax fuel s = Ok None) ∨
  (ge_terminal s = false ∧ ∃ a, minimax fuel s = Ok (Some a) ∧ a ∈ ge_actions s).
Proof.
  intros Hfuel. rewrite minimax_eq. destruct (ge_terminal s) eqn:Ht; [by left|right].
  split; [done|].
  destruct (mapM_Ok_Forall (child fuel s) bounded_int (ge_actions s)) as (vs & Hvs & _).
  { intros a Ha. destruct (ge_result_actions s a Ha) as (s' & Hr & Hm).
    unfold child, helper_func. rewrite Hr. simpl.
    destruct (values_total fuel s') as [? ?]; [lia|]. by case_decide. }
  pose proof (mapM_nonempty _ _ _ (ge_terminal_actions s Ht) Hvs) as Hne.
  destruct (opt_func_nonempty (ge_player s) vs Hne) as [v Hv].
  destruct (opt_func_Ok _ _ _ Hv) as [Hin _].
  destruct (py_index_elem_of v vs Hin) as [i Hi].
  destruct (py_index_Ok v vs i Hi) as [Hvi _].
  destruct (lookup_lt_is_Some_2 (ge_actions s) i) as [a Ha].
  { rewrite <-(mapM_length _ _ _ Hvs). by eapply lookup_lt_Some. }
  exists a. rewrite Hvs. simpl. rewrite Hv. simpl. rewrite Hi. simpl.
  rewrite (py_getitem_lookup _ _ _ Ha). split; [done|]. by eapply list_elem_of_lookup_2.
Qed.

(** [minimax] returns the first action, in the order of [actions],
    whose value is optimal for the player to move: no value is better
    and every earlier action has a different value. *)
Theorem minimax_first_optimal (fuel : nat) (s : St) (a : Act) :
  minimax fuel s = Ok (Some a) →
  ∃ vs i v, mapM (child fuel s) (ge_actions s) = Ok vs ∧
    ge_actions s !! i = Some a ∧ vs !! i = Some v ∧
    (∀ w, w ∈ vs → no_better (ge_player s) w v) ∧
    (∀ j, j < i → vs !! j ≠ Some v).
Proof.
  intros (vs & v & i & Hvs & Hv & Hi & Ha)%minimax_Some_inv.
  destruct (opt_func_Ok _ _ _ Hv) as [_ Hbest].
  destruct (py_index_Ok _ _ _ Hi) as [Hvi Hfirst].
  exists vs, i, v. done.
Qed.

(** The action [minimax] picks has the value [_max_value] (for [X])
    or [_min_value] (for [O]) computes for the state, one level of
    fuel up. *)
Lemma minimax_achieves_value (fuel : nat) (s : St) (a : Act) :
  minimax fuel s = Ok (Some a) →
  ∃ v, child fuel s a = Ok v ∧
    (ge_player s = X → max_value (S fuel) s = Ok v) ∧
    (ge_player s = O → min_value (S fuel) s = Ok v).
Proof.
  intros Hm. pose proof Hm as (vs & v & i & Hvs & Hv & Hi & Ha)%minimax_Some_inv.
  assert (ge_terminal s = false) as Ht.
  { rewrite minimax_eq in Hm. by destruct (ge_terminal s). }
  destruct (py_index_Ok _ _ _ Hi) as [Hvi _].
  pose proof Hvs as Hvs2. apply mapM_Ok in Hvs2.
  destruct (Forall2_lookup_l _ _ _ _ _ Hvs2 Ha) as (v' & Hv' & Hav).
  rewrite Hvi in Hv'. injection Hv' as <-.
  exists v. split; [done|].
  rewrite max_value_S, min_value_S, Ht. unfold opt_func in Hv.
  split; intros Hp; rewrite Hp in Hv; simpl in Hv.
  - rewrite (mapM_Ok_mono (child fuel s) (child_min fuel s) _ vs); [|intros x y _ <-; unfold child, helper_func; by rewrite Hp|done].
    simpl. by rewrite (py_max_fold _ _ Hv).
  - rewrite (mapM_Ok_mono (child fuel s) (child_max fuel s) _ vs); [|intros x y _ <-; unfold child, helper_func; by rewrite Hp|done].
    simpl. by rewrite (py_min_fold _ _ Hv).
Qed.

Lemma values_fuel_le (n m : nat) (s : St) (v : num) :
  n ≤ m →
  (max_value n s = Ok v → max_value m s = Ok v) ∧
  (min_value n s = Ok v → min_value m s = Ok v).
Proof.
  induction 1 as [|m _ IH]; [done|]. destruct IH as [IHmax IHmin].
  split; intros H; apply values_fuel_S; auto.
Qed.
End SearchLaws.

(** ** The game value the search computes *)

Section Refinement.
Context {St Act : Type} `{!GameEngine St Act} `{!GameEngineLaws St Act}.

(** The minimax value of a state, as the game defines it: the mover
    [ge_player s] takes the best value of the states its moves lead
    to, [X] the largest and [O] the smallest. *)
Fixpoint game_value (fuel : nat) (s : St) : option Z :=
  match fuel with
  | 0 => None
  | S fuel' =>
      if ge_terminal s then Some (ge_utility s)
      else
        zs ← mapM (λ a, match ge_result s a with
                        | Ok s' => game_value fuel' s'
                        | Raise _ => None
                        end) (ge_actions s);
        match zs with
        | [] => None
        | z :: zs' =>
            Some (match ge_player s with
                  | X => fold_left Z.max zs' z
                  | O => fold_left Z.min zs' z
                  end)
        end
  end.

Definition is_int (v : num) : Prop := ∃ z, v = Int z.

Lemma is_int_max (x y : num) : is_int x → is_int y → is_int (py_max2 x y).
Proof. intros [a ->] [b ->]. rewrite py_max2_Int. by eexists. Qed.

Lemma is_int_min (x y : num) : is_int x → is_int y → is_int (py_min2 x y).
Proof. intros [a ->] [b ->]. rewrite py_min2_Int. by eexists. Qed.

(** Whatever the fuel, a value the search returns satisfies every
    property of utilities that [max] and [min] keep. *)
Lemma values_closed (P : num → Prop) :
  (∀ s, P (Int (ge_utility s))) →
  (∀ x y, P x → P y → P (py_max2 x y)) → (∀ x y, P x → P y → P (py_min2 x y)) →
  ∀ fuel s v, (max_value fuel s = Ok v → P v) ∧ (min_value fuel s = Ok v → P v).
Proof.
  intros Hu Hmax Hmin fuel. induction fuel as [|fuel IH]; intros s v; [done|].
  rewrite max_value_S, min_value_S. destruct (ge_terminal s) eqn:Ht.
  { split; intros [= <-]; apply Hu. }
  pose proof (ge_terminal_actions s Ht) as Hne.
  split.
  - destruct (mapM _ _) as [ws|] eqn:Hws; simpl; [|done]. intros [= <-].
    apply fold_max_invariant; [apply Hmax|by eapply mapM_nonempty|].
    apply mapM_Ok in Hws. apply Forall_forall. intros w Hw.
    destruct (Forall2_elem_of_r _ _ _ _ Hws Hw) as (a & _ & Ha).
    unfold child_min in Ha. destruct (ge_result s a) as [s'|]; [|done]. exact (proj2 (IH s' w) Ha).
  - destruct (mapM _ _) as [ws|] eqn:Hws; simpl; [|done]. intros [= <-].
    apply fold_min_invariant; [apply Hmin|by eapply mapM_nonempty|].
    apply mapM_Ok in Hws. apply Forall_forall. intros w Hw.
    destruct (Forall2_elem_of_r _ _ _ _ Hws Hw) as (a & _ & Ha).
    unfold child_max in Ha. destruct (ge_result s a) as [s'|]; [|done]. exact (proj1 (IH s' w) Ha).
Qed.

Lemma values_int (fuel : nat) :
  ∀ s v, (max_value fuel s = Ok v → is_int v) ∧ (min_value fuel s = Ok v → is_int v).
Proof. apply values_closed; [by eexists|apply is_int_max|apply is_int_min]. Qed.

(** One level of [game_value]: the values of the children and how the
    mover combines them. *)
Definition child_value (fuel : nat) (s : St) (a : Act) : option Z :=
  match ge_result s a with Ok s' => game_value fuel s' | Raise _ => None end.

Definition combine_values (p : Player) (zs : list Z) : option Z :=
  match zs with
  | [] => None
  | z :: zs' => Some (match p with X => fold_left Z.max zs' z | O => fold_left Z.min zs' z end)
  end.

Lemma game_value_S_eq (fuel : nat) (s : St) :
  game_value (S fuel) s =
  if ge_terminal s then Some (ge_utility s)
  else mapM (child_value fuel s) (ge_actions s) ≫= combine_values (ge_player s).
Proof. reflexivity. Qed.

(** A game value found with some fuel is found with more. *)
Lemma game_value_S (fuel : nat) : ∀ s z, game_value fuel s = Some z → game_value (S fuel) s = Some z.
Proof.
  induction fuel as [|fuel IH]; intros s z; [done|].
  rewrite !game_value_S_eq. destruct (ge_terminal s); [done|].
  destruct (mapM (child_value fuel s) _) as [zs|] eqn:Hzs; [|done]. simpl. intros Hz.
  replace (mapM (child_value (S fuel) s) (ge_actions s)) with (Some zs); [done|].
  symmetry. apply mapM_Some. apply mapM_Some in Hzs. eapply Forall2_impl; [exact Hzs|].
  intros a z'. unfold child_value. destruct (ge_result s a); [apply IH|done].
Qed.

(** The value of a state bounds the value of each child for the
    mover: [X] takes the maximum, [O] the minimum. *)
Lemma game_value_child (fuel : nat) (s s' : St) (a : Act) (z : Z) :
  game_value (S fuel) s = Some z → ge_terminal s = false → a ∈ ge_actions s → ge_result s a = Ok s' →
  ∃ z', game_value fuel s' = Some z' ∧
        (ge_player s = X → (z' ≤ z)%Z) ∧ (ge_player s = O → (z ≤ z')%Z).
Proof.
  rewrite game_value_S_eq. intros Hz Ht Ha Hr. rewrite Ht in Hz.
  destruct (mapM (child_value fuel s) _) as [zs|] eqn:Hzs; [|done]. simpl in Hz.
  apply mapM_Some in Hzs. apply list_elem_of_lookup in Ha as [i Hi].
  destruct (Forall2_lookup_l _ _ _ _ _ Hzs Hi) as (z' & Hz' & Hc).
  unfold child_value in Hc. rewrite Hr in Hc. exists z'. split; [done|].
  apply list_elem_of_lookup_2 in Hz'. destruct zs as [|z0 zs]; [done|].
  unfold combine_values in Hz. injection Hz as <-.
  split; intros ->; [by apply fold_Zmax_ge | by apply fold_Zmin_le].
Qed.

Variable inv : St → Prop.
Hypothesis inv_result : ∀ s a s',
  inv s → ge_terminal s = false → a ∈ ge_actions s → ge_result s a = Ok s' → inv s'.
Hypothesis player_result : ∀ s a s',
  inv s → ge_terminal s = false → a ∈ ge_actions s → ge_result s a = Ok s' →
  ge_player s' ≠ ge_player s.

(** The values of the children, once they are all integers, are the
    game values of the children. *)
Lemma children_game_value (fuel : nat) (s : St) (p : Player)
    (g : St → res num) (zs : list Z) :
  inv s → ge_terminal s = false →
  (∀ s' z, inv s' → ge_player s' = p → g s' = Ok (Int z) → game_value fuel s' = Some z) →
  ge_player s ≠ p →
  mapM (λ a, s' ← ge_result s a; g s') (ge_actions s) = Ok (Int <$> zs) →
  mapM (λ a, match ge_result s a with Ok s' => game_value fuel s' | Raise _ => None end)
    (ge_actions s) = Some zs.
Proof.
  intros Hinv Ht Hg Hp Hws. apply mapM_Ok in Hws. apply mapM_Some.
  apply Forall2_fmap_r in Hws. eapply Forall2_impl_elem_of; [exact Hws|].
  intros a z Ha Hz. simpl in Hz. destruct (ge_result s a) as [s'|] eqn:Hr; [|done].
  apply (Hg s'); [by eapply inv_result| |done].
  pose proof (player_result s a s' Hinv Ht Ha Hr). destruct p, (ge_player s), (ge_player s'); congruence.
Qed.

(** Refinement: on states where the players alternate, [_max_value]
    at an [X] state and [_min_value] at an [O] state compute the game
    value. *)
Theorem values_refine (fuel : nat) :
  ∀ s z, inv s →
    (ge_player s = X → max_value fuel s = Ok (Int z) → game_value fuel s = Some z) ∧
    (ge_player s = O → min_value fuel s = Ok (Int z) → game_value fuel s = Some z).
Proof.
  induction fuel as [|fuel IH]; intros s z Hinv; [done|].
  rewrite max_value_S, min_value_S. simpl. destruct (ge_terminal s) eqn:Ht.
  { split; intros _ [= <-]; done. }
  pose proof (ge_terminal_actions s Ht) as Hne.
  split; intros Hp; destruct (mapM _ _) as [ws|] eqn:Hws; simpl; try done; intros Hz.
  - destruct (Forall_Int ws) as (zs & ->).
    { apply Forall_forall. intros w Hw. apply mapM_Ok in Hws.
      destruct (Forall2_elem_of_r _ _ _ _ Hws Hw) as (a & _ & Ha).
      unfold child_min in Ha. destruct (ge_result s a) as [s'|]; [|done].
      exact (proj2 (values_int fuel s' w) Ha). }
    rewrite (children_game_value fuel s O (min_value fuel) zs); [| done | done | | by rewrite Hp | done].
    2:{ intros s' z' Hs' Hp'. by apply IH. }
    destruct zs as [|z0 zs]; [by destruct (mapM_nonempty _ _ _ Hne Hws)|].
    rewrite fold_py_max2_NegInf in Hz. injection Hz as <-. by rewrite Hp.
  - destruct (Forall_Int ws) as (zs & ->).
    { apply Forall_forall. intros w Hw. apply mapM_Ok in Hws.
      destruct (Forall2_elem_of_r _ _ _ _ Hws Hw) as (a & _ & Ha).
      unfold child_max in Ha. destruct (ge_result s a) as [s'|]; [|done].
      exact (proj1 (values_int fuel s' w) Ha). }
    rewrite (children_game_value fuel s X (max_value fuel) zs); [| done | done | | by rewrite Hp | done].
    2:{ intros s' z' Hs' Hp'. by apply IH. }
    destruct zs as [|z0 zs]; [by destruct (mapM_nonempty _ _ _ Hne Hws)|].
    rewrite fold_py_min2_PosInf in Hz. injection Hz as <-. by rewrite Hp.
Qed.
End Refinement.
