(* ===== verification/TicTacToe.v ===== *)
(** * TicTacToe: the board as an instance of the search interface

    The instance [tictactoe_engine] plugs [Board.player],
    [Board.actions], [Board.result], [Evaluation.terminal] and
    [Evaluation.utility] into [Search.GameEngine]; [tictactoe_laws]
    proves the laws of [Search.GameEngineLaws] with the number of empty
    cells as the measure.  [max_value], [min_value] and [minimax] are
    the module's [_max_value], [_min_value] and [minimax] at the fuel
    [search_fuel = N * N + 1], which the measure never reaches.

    The theorems: [minimax] never raises; the values are [int]s in
    [[-1, 1]] that more fuel does not change; and on a board whose
    completed line [winner] misses, [terminal] is false and [minimax]
    plays on. *)

From S2P Require Import Prelude Board Evaluation Search.

#[export] Instance tictactoe_engine : GameEngine board action := {|
  ge_player := player;
  ge_actions := actions;
  ge_result := result;
  ge_terminal := terminal;
  ge_utility := utility;
|}.

(** A board has at most [N * N] empty cells, and a move fills one. *)
Definition search_fuel : nat := N * N + 1.

Definition max_value (b : board) : res num := Search.max_value search_fuel b.
Definition min_value (b : board) : res num := Search.min_value search_fuel b.
Definition minimax (b : board) : res (option action) := Search.minimax search_fuel b.

(** ** The laws *)

Lemma length_actions_le (b : board) : length (actions b) ≤ N * N.
Proof.
  rewrite length_actions. unfold count_cell.
  etransitivity; [apply length_filter|]. unfold cells. by rewrite length_fmap.
Qed.

Lemma terminal_false_actions (b : board) : terminal b = false → actions b ≠ [].
Proof.
  unfold terminal. destruct (winner b); [discriminate|].
  intros Ht Hnil. rewrite Hnil in Ht. discriminate.
Qed.

#[export] Instance tictactoe_laws : GameEngineLaws board action := {|
  ge_measure b := length (actions b);
  ge_terminal_actions := terminal_false_actions;
  ge_result_actions := result_measure;
  ge_utility_bounds := utility_bounds;
|}.

Lemma measure_lt_fuel (b : board) : ge_measure b < search_fuel.
Proof. simpl. pose proof (length_actions_le b). unfold search_fuel. lia. Qed.

(** ** The search on boards *)

(** The value of each action, as [minimax] computes it. *)
Definition move_value (b : board) (a : action) : res num := child search_fuel b a.

(** ** Lemmas on the search *)

(** The action [minimax] returns has the best [move_value] for the
    player to move among all actions, and every action listed before it
    has a different one. *)
Lemma minimax_first_optimal_move (b : board) (a : action) :
  minimax b = Ok (Some a) →
  ∃ i v, actions b !! i = Some a ∧ move_value b a = Ok v ∧
    ∀ j a' w, actions b !! j = Some a' → move_value b a' = Ok w →
      no_better (player b) w v ∧ (j < i → w ≠ v).
Proof.
  intros (vs & i & v & Hvs & Ha & Hv & Hbest & Hfirst)%minimax_first_optimal.
  apply mapM_Ok in Hvs.
  destruct (Forall2_lookup_l _ _ _ _ _ Hvs Ha) as (v' & Hv' & Hav).
  rewrite Hv in Hv'. injection Hv' as <-.
  exists i, v. split; [done|]. split; [done|].
  intros j a' w Ha' Hw.
  destruct (Forall2_lookup_l _ _ _ _ _ Hvs Ha') as (w' & Hw' & Haw).
  unfold move_value in Hw. simpl in Haw. rewrite Hw in Haw. injection Haw as <-.
  split; [apply Hbest; by eapply list_elem_of_lookup_2|].
  intros Hj ->. by apply (Hfirst j).
Qed.

(** ** Theorems *)

(** C1: [minimax] never raises: on a terminal board it returns [None],
    on any other board one of the actions [actions] lists. *)
Theorem minimax_total_board (b : board) :
  (terminal b = true ∧ minimax b = Ok None) ∨
  (terminal b = false ∧ ∃ a, minimax b = Ok (Some a) ∧ a ∈ actions b).
Proof. exact (minimax_total search_fuel b (measure_lt_fuel b)). Qed.

(** C3: [_max_value] and [_min_value] return an integer in [[-1, 1]]
    on every board, and more fuel than [search_fuel] changes nothing:
    the fuel bound is never what stops the search. *)
Theorem values_bounded_fuel (b : board) (n : nat) :
  search_fuel ≤ n →
  (∃ z, max_value b = Ok (Int z) ∧ Search.max_value n b = Ok (Int z) ∧ (-1 ≤ z ≤ 1)%Z) ∧
  (∃ z, min_value b = Ok (Int z) ∧ Search.min_value n b = Ok (Int z) ∧ (-1 ≤ z ≤ 1)%Z).
Proof.
  intros Hn. destruct (values_total search_fuel b (measure_lt_fuel b))
    as [(v & Hmax & z & -> & Hz) (w & Hmin & z' & -> & Hz')].
  split.
  - exists z. split; [done|]. split; [|done]. by apply (values_fuel_le search_fuel n).
  - exists z'. split; [done|]. split; [|done]. by apply (values_fuel_le search_fuel n).
Qed.

Lemma values_bounded_fuel_witness :
  search_fuel ≤ 2 * search_fuel ∧
  (∃ z, max_value initial_state = Ok (Int z) ∧
        Search.max_value (2 * search_fuel) initial_state = Ok (Int z) ∧ (-1 ≤ z ≤ 1)%Z) ∧
  (∃ z, min_value initial_state = Ok (Int z) ∧
        Search.min_value (2 * search_fuel) initial_state = Ok (Int z) ∧ (-1 ≤ z ≤ 1)%Z).
Proof.
  assert (search_fuel ≤ 2 * search_fuel) as H by lia.
  split; [exact H|]. exact (values_bounded_fuel _ _ H).
Defined.

(** C7: a won board whose line [winner] does not see is not terminal,
    and the search plays on: whenever a player owns a line (the
    specification's winner) but [winner] returns [None], [terminal] is
    false and [minimax] returns one of the listed actions, although the
    specification says the game is over. *)
Theorem hidden_win_not_terminal (b : board) (p : Player) :
  spec_winner b = Some p → winner b = None →
  terminal b = false ∧ ∃ a, minimax b = Ok (Some a) ∧ a ∈ actions b.
Proof.
  intros Hs Hw. destruct (hidden_win_empty_line b p Hs Hw) as (l & _ & He).
  pose proof (terminal_None_actions b Hw (line_empty_actions b l He)) as Ht.
  destruct (minimax_total search_fuel b (measure_lt_fuel b))
    as [[Ht' _] | (_ & a & Hm & Ha)]; [simpl in Ht'; congruence|].
  split; [done|]. by exists a.
Qed.

Lemma hidden_win_not_terminal_witness :
  spec_winner x_bottom_board = Some X ∧ winner x_bottom_board = None ∧
  terminal x_bottom_board = false ∧ ∃ a, minimax x_bottom_board = Ok (Some a) ∧ a ∈ actions x_bottom_board.
Proof.
  assert (spec_winner x_bottom_board = Some X) as H1 by (vm_compute; reflexivity).
  assert (winner x_bottom_board = None) as H2 by reflexivity.
  split; [exact H1|]. split; [exact H2|]. exact (hidden_win_not_terminal _ _ H1 H2).
Defined.
