(* ===== verification/Game.v ===== *)
(** * Game: the game played through the module's API

    The module has no game loop; its caller (spec, section 2) calls
    [actions] or [minimax], then [result], until [terminal] holds.
    [step] is one such call of [result] with a listed action on a
    non-terminal board, and [reachable] the boards that a sequence of
    them produces from [initial_state].

    The theorems: the piece counts of a reachable board differ by zero
    or one ([valid_counts]) and [player] alternates along [step]; on
    such boards [_max_value]/[_min_value] compute the game value
    [Search.game_value], and the action [minimax] picks keeps the game
    value; that value also shows the move is optimal, with the
    first-in-row-major-order tie-break.  The concrete boards on which
    [winner] misses a completed line back the findings.  Last, games
    as sequences of steps: every game ends (the converse of [step] is
    well founded), and marks are never overwritten. *)

From stdpp Require Import relations well_founded.
From S2P Require Import Prelude Board Evaluation Search TicTacToe.

(** ** Reachable boards *)

Definition valid_counts (b : board) : Prop :=
  count_cell (Some X) b = count_cell (Some O) b ∨
  count_cell (Some X) b = S (count_cell (Some O) b).

#[export] Instance valid_counts_dec (b : board) : Decision (valid_counts b).
Proof. unfold valid_counts. apply _. Defined.

Inductive step : board → board → Prop :=
  | step_move (b : board) (a : action) (b' : board) :
      terminal b = false → a ∈ actions b → result b a = Ok b' → step b b'.

Definition reachable (b : board) : Prop := rtc step initial_state b.

(** A move adds one mark of the player to move and no other mark. *)
Lemma result_counts (b b' : board) (a : action) (p : Player) :
  result b a = Ok b' →
  count_cell (Some p) b' = count_cell (Some p) b + (if decide (p = player b) then 1 else 0).
Proof.
  intros (r & c & _ & _ & He & ->)%result_Ok_inv.
  pose proof (count_cell_set_cell b r c (Some p) (Some (player b))) as H.
  rewrite He in H. repeat case_decide; simplify_eq; lia.
Qed.

Lemma valid_counts_result (b b' : board) (a : action) :
  valid_counts b → result b a = Ok b' → valid_counts b' ∧ player b' ≠ player b.
Proof.
  intros Hv Hr.
  pose proof (result_counts b b' a X Hr) as HX.
  pose proof (result_counts b b' a O Hr) as HO.
  pose proof (player_X_iff b) as Hb. pose proof (player_X_iff b') as Hb'.
  unfold valid_counts in *. destruct (player b) eqn:Hp.
  - rewrite decide_True in HX by done. rewrite decide_False in HO by done.
    assert (count_cell (Some X) b = count_cell (Some O) b) by (by apply Hb).
    split; [right; lia|]. intros Hp'%Hb'. lia.
  - rewrite decide_False in HX by done. rewrite decide_True in HO by done.
    assert (count_cell (Some X) b ≠ count_cell (Some O) b) by (intros ?%Hb; congruence).
    split; [left; lia|]. intros Hp'. assert (player b' = X) by (apply Hb'; lia). congruence.
Qed.

Lemma initial_valid_counts : valid_counts initial_state.
Proof. by left. Qed.

(** ** Correctness of the search *)

Lemma valid_counts_inv_result (b : board) (a : action) (b' : board) :
  valid_counts b → ge_terminal b = false → a ∈ ge_actions b → ge_result b a = Ok b' →
  valid_counts b'.
Proof. intros Hv _ _ Hr. exact (proj1 (valid_counts_result b b' a Hv Hr)). Qed.

Lemma valid_counts_player_result (b : board) (a : action) (b' : board) :
  valid_counts b → ge_terminal b = false → a ∈ ge_actions b → ge_result b a = Ok b' →
  ge_player b' ≠ ge_player b.
Proof. intros Hv _ _ Hr. exact (proj2 (valid_counts_result b b' a Hv Hr)). Qed.

Definition values_refine_board :=
  values_refine valid_counts valid_counts_inv_result valid_counts_player_result.

(** The value the search gives a board for the player to move. *)
Definition board_value (b : board) : res num :=
  match player b with X => max_value b | O => min_value b end.

Lemma board_value_game_value (b : board) :
  valid_counts b → ∃ z, board_value b = Ok (Int z) ∧ game_value search_fuel b = Some z.
Proof.
  intros Hv. destruct (values_bounded_fuel b search_fuel) as [(z & Hmax & _) (z' & Hmin & _)]; [done|].
  unfold board_value. destruct (player b) eqn:Hp.
  - exists z. split; [done|]. by apply (proj1 (values_refine_board search_fuel b z Hv)).
  - exists z'. split; [done|]. by apply (proj2 (values_refine_board search_fuel b z' Hv)).
Qed.

Lemma reachable_valid_counts (b : board) : reachable b → valid_counts b.
Proof.
  unfold reachable. revert b. apply rtc_ind_r; [apply initial_valid_counts|].
  intros b1 b2 _ Hstep IH. inversion Hstep as [? a ? _ _ Hres]; subst.
  exact (proj1 (valid_counts_result _ _ _ IH Hres)).
Qed.

(** Replaying a list of moves, checking each the way [step] requires. *)
Fixpoint replay (b : board) (moves : list action) : option board :=
  match moves with
  | [] => Some b
  | a :: moves' =>
      if terminal b then None
      else if decide (a ∈ actions b) then
        match result b a with Ok b' => replay b' moves' | Raise _ => None end
      else None
  end.

Lemma replay_rtc (b b' : board) (moves : list action) :
  replay b moves = Some b' → rtc step b b'.
Proof.
  revert b. induction moves as [|a moves IH]; intros b; simpl.
  - intros [= ->]. apply rtc_refl.
  - destruct (terminal b) eqn:Ht; [done|]. case_decide as Ha; [|done].
    destruct (result b a) as [b1|] eqn:Hr; [|done].
    intros Hrep. eapply rtc_l; [by econstructor|]. by apply IH.
Qed.

Lemma replay_reachable (b b' : board) (moves : list action) :
  reachable b → replay b moves = Some b' → reachable b'.
Proof. intros Hb Hrep. eapply rtc_trans; [exact Hb|]. by eapply replay_rtc. Qed.

(** ** Concrete boards *)

(** [X] has completed the bottom row while the top row is empty. *)
Definition x_row2_board : board :=
  Board (Row EMPTY EMPTY EMPTY) (Row (Some O) (Some O) EMPTY) (Row (Some X) (Some X) (Some X)).

(** [O] has since completed the middle row, and [X] played in the top row. *)
Definition o_credited_board : board :=
  Board (Row (Some X) EMPTY EMPTY) (Row (Some O) (Some O) (Some O)) (Row (Some X) (Some X) (Some X)).

(** The move [minimax] picks on a board with valid counts keeps the
    game value. *)
Lemma minimax_move_keeps_value (b : board) (a : action) :
  valid_counts b → minimax b = Ok (Some a) →
  ∃ b', result b a = Ok b' ∧ game_value search_fuel b' = game_value search_fuel b.
Proof.
  intros Hv Hm.
  destruct (minimax_achieves_value search_fuel b a Hm) as (v & Hchild & HX & HO).
  apply bind_Ok in Hchild as (b' & Hr & Hh).
  change (ge_result b a) with (result b a) in Hr.
  change (ge_player b) with (player b) in Hh, HX, HO.
  exists b'. split; [done|].
  destruct (valid_counts_result b b' a Hv Hr) as [Hv' Hp'].
  destruct (board_value_game_value b Hv) as (z & Hz & ->).
  destruct (board_value_game_value b' Hv') as (z' & Hz' & ->).
  f_equal. unfold board_value, helper_func in *.
  destruct (player b), (player b'); try congruence.
  - rewrite decide_False in Hh by done. unfold min_value in Hz'. rewrite Hz' in Hh. injection Hh as <-.
    pose proof (proj1 (values_fuel_le search_fuel (S search_fuel) b (Int z) (Nat.le_succ_diag_r _)) Hz) as H.
    rewrite (HX eq_refl) in H. congruence.
  - rewrite decide_True in Hh by done. unfold max_value in Hz'. rewrite Hz' in Hh. injection Hh as <-.
    pose proof (proj2 (values_fuel_le search_fuel (S search_fuel) b (Int z) (Nat.le_succ_diag_r _)) Hz) as H.
    rewrite (HO eq_refl) in H. congruence.
Qed.

(** ** Games as sequences of steps *)

Lemma step_actions_length (b b' : board) :
  step b b' → length (actions b') < length (actions b).
Proof.
  inversion 1 as [? a ? _ Ha Hr]; subst.
  destruct (result_measure b a Ha) as (b'' & Hr' & Hlt). congruence.
Qed.

Lemma step_marks (b b' : board) (r c : idx) (p : Player) :
  step b b' → b.[r, c] = Some p → b'.[r, c] = Some p.
Proof.
  inversion 1 as [? a ? _ _ Hres]; subst. intros Hp.
  destruct (result_Ok_inv _ _ _ Hres) as (r0 & c0 & _ & _ & He & ->).
  rewrite cell_at_set_cell_ne; [done|]. intros [= -> ->]. congruence.
Qed.

Lemma rtc_step_marks (b b' : board) (r c : idx) (p : Player) :
  rtc step b b' → b.[r, c] = Some p → b'.[r, c] = Some p.
Proof. induction 1; eauto using step_marks. Qed.

(** The two moves (1,2) by [O] and (0,0) by [X] lead from
    [x_row2_board] to [o_credited_board]. *)
Lemma x_row2_o_credited_nsteps : nsteps step 2 x_row2_board o_credited_board.
Proof.
  eapply nsteps_l; [apply (step_move _ (1, 2)%Z); [reflexivity | apply (bool_decide_unpack _); vm_compute; exact I | vm_compute; reflexivity]|].
  eapply nsteps_l; [apply (step_move _ (0, 0)%Z); [reflexivity | apply (bool_decide_unpack _); vm_compute; exact I | reflexivity]|].
  apply nsteps_O.
Qed.

(** ** Optimality against the game value *)

(** The value [z] is at least as good as [w] for the player [p]:
    [X] wants it large, [O] small. *)
Definition no_worse (p : Player) (z w : Z) : Prop :=
  match p with X => (w ≤ z)%Z | O => (z ≤ w)%Z end.

Lemma no_worse_refl (p : Player) (z : Z) : no_worse p z z.
Proof. destruct p; simpl; lia. Qed.

Lemma no_worse_trans (p : Player) (x y z : Z) : no_worse p x y → no_worse p y z → no_worse p x z.
Proof. destruct p; simpl; lia. Qed.

Lemma no_better_Int (p : Player) (w v : Z) : no_better p (Int w) (Int v) → no_worse p v w.
Proof. destruct p; unfold no_better, num_ltb; simpl; rewrite Z.ltb_ge; lia. Qed.

(** The value [minimax] gives a move is the value of the board it
    leads to for the player who moves next. *)
Lemma move_value_board_value (b b' : board) (a : action) :
  valid_counts b → result b a = Ok b' → move_value b a = board_value b'.
Proof.
  intros Hv Hr. unfold move_value, child. change (ge_result b a) with (result b a).
  rewrite Hr. cbn [mbind res_bind]. destruct (valid_counts_result b b' a Hv Hr) as [_ Hp].
  change (ge_player b) with (player b). unfold helper_func, board_value.
  destruct (player b), (player b'); try congruence.
  - by rewrite decide_False.
  - by rewrite decide_True.
Qed.

Lemma move_value_game_value (b b' : board) (a : action) :
  valid_counts b → result b a = Ok b' →
  ∃ z, move_value b a = Ok (Int z) ∧ game_value search_fuel b' = Some z.
Proof.
  intros Hv Hr. rewrite (move_value_board_value b b' a Hv Hr).
  apply board_value_game_value, (proj1 (valid_counts_result b b' a Hv Hr)).
Qed.

(** ** Theorems *)

(** C2: the move [minimax] picks on a reachable board is optimal for
    the player to move, measured by the game value
    [Search.game_value] (the minimax value of the game tree, defined
    independently of the search): no listed action leads to a board of
    better value, and every action listed before it leads to a board
    of a different value.  So the tie-break picks the first optimal
    action in row-major order. *)
Theorem minimax_optimal_first (b : board) (a : action) :
  reachable b → minimax b = Ok (Some a) →
  ∃ i b1 z, actions b !! i = Some a ∧ result b a = Ok b1 ∧ game_value search_fuel b1 = Some z ∧
    ∀ j a' b' z', actions b !! j = Some a' → result b a' = Ok b' →
      game_value search_fuel b' = Some z' → no_worse (player b) z z' ∧ (j < i → z' ≠ z).
Proof.
  intros Hr Hm. pose proof (reachable_valid_counts b Hr) as Hv.
  destruct (minimax_first_optimal_move b a Hm) as (i & v & Ha & Hva & Hall).
  destruct (result_listed b a (list_elem_of_lookup_2 _ _ _ Ha)) as (b1 & Hr1 & _).
  destruct (move_value_game_value b b1 a Hv Hr1) as (z & Hz & Hg).
  rewrite Hz in Hva. injection Hva as <-.
  exists i, b1, z. split_and!; [done..|]. intros j a' b' z' Ha' Hr' Hg'.
  destruct (move_value_game_value b b' a' Hv Hr') as (z'' & Hz' & Hg'').
  rewrite Hg' in Hg''. injection Hg'' as <-.
  destruct (Hall j a' (Int z') Ha' Hz') as [Hb Hf]. split; [by apply no_better_Int|].
  intros Hj ->. by apply Hf.
Qed.

Lemma minimax_optimal_first_witness :
  reachable x_row2_board ∧ minimax x_row2_board = Ok (Some (1, 2)%Z) ∧
  ∃ i b1 z, actions x_row2_board !! i = Some (1, 2)%Z ∧ result x_row2_board (1, 2)%Z = Ok b1 ∧
    game_value search_fuel b1 = Some z ∧
    ∀ j a' b' z', actions x_row2_board !! j = Some a' → result x_row2_board a' = Ok b' →
      game_value search_fuel b' = Some z' → no_worse (player x_row2_board) z z' ∧ (j < i → z' ≠ z).
Proof.
  assert (reachable x_row2_board) as Hr.
  { apply (replay_reachable initial_state _ [(2, 0); (1, 0); (2, 1); (1, 1); (2, 2)]%Z);
      [apply rtc_refl | vm_compute; reflexivity]. }
  assert (minimax x_row2_board = Ok (Some (1, 2)%Z)) as Hm by (vm_compute; reflexivity).
  split; [exact Hr|]. split; [exact Hm|]. exact (minimax_optimal_first _ _ Hr Hm).
Defined.

(** C4: the move [minimax] picks on a reachable board leads to a board
    of the same game value: the search plays optimally. *)
Theorem minimax_preserves_game_value (b : board) (a : action) :
  reachable b → minimax b = Ok (Some a) →
  ∃ b', result b a = Ok b' ∧ game_value search_fuel b' = game_value search_fuel b.
Proof. intros Hr. apply minimax_move_keeps_value, reachable_valid_counts, Hr. Qed.

(** Witness: the reply of [O] on the board where [X] has just
    completed the bottom row. *)
Lemma minimax_preserves_game_value_witness :
  reachable x_row2_board ∧ minimax x_row2_board = Ok (Some (1, 2)%Z) ∧
  ∃ b', result x_row2_board (1, 2)%Z = Ok b' ∧
        game_value search_fuel b' = game_value search_fuel x_row2_board.
Proof.
  assert (reachable x_row2_board) as Hr.
  { apply (replay_reachable initial_state _ [(2, 0); (1, 0); (2, 1); (1, 1); (2, 2)]%Z);
      [apply rtc_refl | vm_compute; reflexivity]. }
  assert (minimax x_row2_board = Ok (Some (1, 2)%Z)) as Hm by (vm_compute; reflexivity).
  split; [exact Hr|]. split; [exact Hm|].
  exact (minimax_preserves_game_value _ _ Hr Hm).
Defined.

(** C5: on every reachable board, [_max_value] (for [X] to move) or
    [_min_value] (for [O]) returns the game value of the board. *)
Theorem reachable_search_game_value (b : board) :
  reachable b →
  ∃ z, game_value search_fuel b = Some z ∧
       (player b = X → max_value b = Ok (Int z)) ∧
       (player b = O → min_value b = Ok (Int z)).
Proof.
  intros Hr. destruct (board_value_game_value b (reachable_valid_counts b Hr)) as (z & Hz & Hg).
  exists z. unfold board_value in Hz. split; [done|]. split; intros Hp; by rewrite Hp in Hz.
Qed.

Lemma reachable_search_game_value_witness :
  reachable initial_state ∧
  ∃ z, game_value search_fuel initial_state = Some z ∧
       (player initial_state = X → max_value initial_state = Ok (Int z)) ∧
       (player initial_state = O → min_value initial_state = Ok (Int z)).
Proof.
  assert (reachable initial_state) as Hr by apply rtc_refl.
  split; [exact Hr|]. exact (reachable_search_game_value initial_state Hr).
Defined.

(** C6: on a reachable board the counts of [X] and [O] are equal or
    [X] leads by one, and every successful [result] keeps this and
    hands the turn to the other player. *)
Theorem reachable_counts_invariant (b : board) :
  reachable b →
  valid_counts b ∧
  ∀ a b', result b a = Ok b' → valid_counts b' ∧ player b' ≠ player b.
Proof.
  intros Hr. pose proof (reachable_valid_counts b Hr) as Hv. split; [done|].
  intros a b'. by apply valid_counts_result.
Qed.

Lemma reachable_counts_invariant_witness :
  reachable initial_state ∧ valid_counts initial_state ∧
  ∀ a b', result initial_state a = Ok b' → valid_counts b' ∧ player b' ≠ player initial_state.
Proof.
  assert (reachable initial_state) as Hr by apply rtc_refl.
  split; [exact Hr|]. exact (reachable_counts_invariant initial_state Hr).
Defined.

(** The board behind the findings on [winner] (line 88): after
    the moves (2,0) (1,0) (2,1) (1,1) (2,2), [X] owns the bottom row,
    yet [winner] returns [None] (the empty top row stops the scan) and
    the board is not terminal, so the game goes on. *)
Lemma winner_misses_reachable_win :
  replay initial_state [(2, 0); (1, 0); (2, 1); (1, 1); (2, 2)]%Z = Some x_row2_board ∧
  reachable x_row2_board ∧
  spec_winner x_row2_board = Some X ∧ winner x_row2_board = None ∧
  terminal x_row2_board = false.
Proof.
  assert (replay initial_state [(2, 0); (1, 0); (2, 1); (1, 1); (2, 2)]%Z = Some x_row2_board)
    as Hrep by (vm_compute; reflexivity).
  split; [done|]. split; [exact (replay_reachable _ _ _ (rtc_refl _ _) Hrep)|].
  vm_compute. auto.
Qed.

(** On that board the search, playing [O], finds the move (1,2)
    and values the board -1 ([O] wins): after [O] completes the middle
    row and [X] plays (0,0), [winner] reports [O] and the game ends
    with utility -1, although [X] completed a line two plies earlier. *)
Lemma search_credits_O_after_X_won :
  minimax x_row2_board = Ok (Some (1, 2)%Z) ∧
  min_value x_row2_board = Ok (Int (-1)) ∧
  replay x_row2_board [(1, 2); (0, 0)]%Z = Some o_credited_board ∧
  winner o_credited_board = Some O ∧ terminal o_credited_board = true ∧
  utility o_credited_board = (-1)%Z.
Proof. vm_compute. repeat split. Qed.

(** C20 (termination): every game ends.  [step] strictly decreases the
    number of empty cells, so there is no infinite sequence of moves:
    the converse of [step] is well founded. *)
Theorem step_well_founded : well_founded (λ b' b, step b b').
Proof.
  apply (wf_projected (<) (λ b, length (actions b))); [|apply lt_wf].
  intros b' b. apply step_actions_length.
Qed.

(** C22 (safety): a mark once placed is never overwritten or removed:
    along any sequence of legal moves every occupied cell keeps its
    player. *)
Theorem marks_permanent (b b' : board) (r c : idx) (p : Player) :
  rtc step b b' → b.[r, c] = Some p → b'.[r, c] = Some p.
Proof. apply rtc_step_marks. Qed.

Lemma marks_permanent_witness :
  rtc step x_row2_board o_credited_board ∧ x_row2_board.[I2, I0] = Some X ∧
  o_credited_board.[I2, I0] = Some X.
Proof.
  assert (rtc step x_row2_board o_credited_board) as Hs
    by (apply rtc_nsteps; eexists; exact x_row2_o_credited_nsteps).
  assert (x_row2_board.[I2, I0] = Some X) as Hc by reflexivity.
  split; [exact Hs|]. split; [exact Hc|]. exact (marks_permanent _ _ I2 I0 X Hs Hc).
Defined.
