(* ===== verification/Play.v ===== *)
(** * Play: the caller's game loops

    The module has no loop of its own; the specification (sections 1
    and 2) describes its caller: it repeatedly calls [minimax] (or
    picks from [actions]), then [result], and stops once [terminal]
    holds.  This file models two such callers from the specification:
    [self_play], the loop with both players using [minimax], and
    [ai_step], a game between the engine (one player, moving with
    [minimax]) and a human at the UI (the other, with any listed
    action); [Game.step] is one iteration with any listed action.

    The theorems: [self_play] on a reachable board never raises, ends
    on a terminal board, and its final utility is the game value of the
    board it started from.  Against any human the engine secures the
    game value of the board it starts from.  A concrete game backs a
    finding: since it reasons with [winner], the engine lets the human
    complete a line that [winner] does not see. *)

From stdpp Require Import relations.
From S2P Require Import Prelude Board Evaluation Search TicTacToe Game.

(** [while not terminal(board): board = result(board, minimax(board))],
    with [fuel] bounding the number of iterations. *)
Fixpoint self_play (fuel : nat) (b : board) : res board :=
  match fuel with
  | 0 => raise RecursionError
  | S fuel' =>
      if terminal b then Ok b
      else
        m ← minimax b;
        match m with
        | None => Ok b
        | Some a => b' ← result b a; self_play fuel' b'
        end
  end.

(** The caller of a game between the engine and a human at the UI
    (spec, sections 1 and 2): on the turn of [ai] the move is the one
    [minimax] returns, on the other player's turn any listed action. *)
Inductive ai_step (ai : Player) : board → board → Prop :=
  | ai_move (b b' : board) (a : action) :
      player b = ai → terminal b = false → minimax b = Ok (Some a) → result b a = Ok b' →
      ai_step ai b b'
  | human_move (b b' : board) :
      player b ≠ ai → step b b' → ai_step ai b b'.

(** Replaying the moves of a game against the engine, checking that
    each of the engine's is the one [minimax] returns and each of the
    human's is listed. *)
Fixpoint replay_vs (ai : Player) (b : board) (moves : list action) : option board :=
  match moves with
  | [] => Some b
  | a :: moves' =>
      if terminal b then None
      else if decide (player b = ai) then
        match minimax b with
        | Ok (Some a') =>
            if decide (a = a') then
              match result b a with Ok b' => replay_vs ai b' moves' | Raise _ => None end
            else None
        | _ => None
        end
      else if decide (a ∈ actions b) then
        match result b a with Ok b' => replay_vs ai b' moves' | Raise _ => None end
      else None
  end.

(** The human, playing [X], has completed the right column after
    (0,2) (1,2) (2,2); the engine played (1,1) and (0,1). *)
Definition human_column_board : board :=
  Board (Row EMPTY (Some O) (Some X)) (Row EMPTY (Some O) (Some X)) (Row EMPTY EMPTY (Some X)).

(** ** Lemmas *)

Lemma terminal_game_value (b : board) (n : nat) :
  terminal b = true → game_value (S n) b = Some (utility b).
Proof. intros Ht. simpl. by rewrite Ht. Qed.

Lemma terminal_search_value (b : board) :
  terminal b = true → game_value search_fuel b = Some (utility b).
Proof. apply (terminal_game_value b (N * N)). Qed.

Lemma self_play_S (n : nat) (b : board) :
  self_play (S n) b =
  if terminal b then Ok b
  else m ← minimax b; match m with None => Ok b | Some a => b' ← result b a; self_play n b' end.
Proof. reflexivity. Qed.

(** With more iterations than empty cells, the loop ends on a terminal
    board that realises the game value of its start. *)
Lemma self_play_valid (n : nat) (b : board) :
  valid_counts b → length (actions b) < n →
  ∃ b', self_play n b = Ok b' ∧ terminal b' = true ∧ rtc step b b' ∧
        game_value search_fuel b = Some (utility b').
Proof.
  revert b. induction n as [|n IH]; intros b Hv Hn; [lia|]. rewrite self_play_S.
  destruct (terminal b) eqn:Ht.
  { exists b. split; [done|]. split; [done|]. split; [apply rtc_refl|].
    by apply terminal_game_value. }
  set (G := game_value search_fuel b).
  destruct (minimax_total search_fuel b (measure_lt_fuel b))
    as [[Ht' _] | (_ & a & Hm & Ha)]; [simpl in Ht'; congruence|].
  change (Search.minimax search_fuel b) with (minimax b) in Hm. rewrite Hm. simpl.
  destruct (minimax_move_keeps_value b a Hv Hm) as (b1 & Hr & Hval).
  rewrite Hr. simpl.
  assert (step b b1) as Hstep by (econstructor; [exact Ht|exact Ha|exact Hr]).
  destruct (IH b1) as (b' & Hplay & Ht1 & Hrtc & Hg).
  - exact (proj1 (valid_counts_result b b1 a Hv Hr)).
  - pose proof (step_actions_length _ _ Hstep). lia.
  - exists b'. split; [done|]. split; [done|]. split; [by eapply rtc_l|]. unfold G. congruence.
Qed.

(** ** Lemmas on games against the engine *)

Lemma minimax_step (b b' : board) (a : action) :
  terminal b = false → minimax b = Ok (Some a) → result b a = Ok b' → step b b'.
Proof.
  intros Ht Hm Hr.
  destruct (minimax_total search_fuel b (measure_lt_fuel b))
    as [[Ht' _] | (_ & a' & Hm' & Ha)]; [simpl in Ht'; congruence|].
  change (Search.minimax search_fuel b) with (minimax b) in Hm'.
  rewrite Hm in Hm'. injection Hm' as <-. by econstructor.
Qed.

Lemma ai_step_step (ai : Player) (b b' : board) : ai_step ai b b' → step b b'.
Proof. destruct 1; [by eapply minimax_step|done]. Qed.

(** A move of the player [player b] leaves a board whose game value
    is no better for that player than the value of [b]. *)
Lemma step_child_value (b b' : board) (z z' : Z) :
  step b b' → game_value search_fuel b = Some z → game_value search_fuel b' = Some z' →
  (player b = X → (z' ≤ z)%Z) ∧ (player b = O → (z ≤ z')%Z).
Proof.
  inversion 1 as [? a ? Ht Ha Hr]; subst. intros Hz Hz'.
  destruct (game_value_child (N * N) b b' a z Hz Ht Ha Hr) as (z'' & Hz'' & HX & HO).
  apply game_value_S in Hz''. change (S (N * N)) with search_fuel in Hz''.
  rewrite Hz' in Hz''. injection Hz'' as <-. done.
Qed.

(** Along the engine's and the human's moves the game value never gets
    worse for the engine. *)
Lemma ai_step_no_worse (ai : Player) (b b' : board) (z z' : Z) :
  valid_counts b → ai_step ai b b' →
  game_value search_fuel b = Some z → game_value search_fuel b' = Some z' → no_worse ai z' z.
Proof.
  intros Hv Hs Hz Hz'. destruct Hs as [b b' a Hp Ht Hm Hr | b b' Hp Hs].
  - destruct (minimax_move_keeps_value b a Hv Hm) as (b1 & Hr1 & Hval).
    rewrite Hr in Hr1. injection Hr1 as <-. rewrite Hz, Hz' in Hval. injection Hval as ->.
    apply no_worse_refl.
  - destruct (step_child_value b b' z z' Hs Hz Hz') as [HX HO].
    destruct ai, (player b); simpl in *; try congruence; [specialize (HO eq_refl)|specialize (HX eq_refl)]; lia.
Qed.

Lemma rtc_ai_no_worse (ai : Player) (b b' : board) (z : Z) :
  rtc (ai_step ai) b b' → valid_counts b → game_value search_fuel b = Some z →
  valid_counts b' ∧ ∃ z', game_value search_fuel b' = Some z' ∧ no_worse ai z' z.
Proof.
  intros Hrtc. revert z. induction Hrtc as [b|b b1 b' Hs _ IH]; intros z Hv Hz.
  { split; [done|]. exists z. split; [done|apply no_worse_refl]. }
  pose proof (ai_step_step _ _ _ Hs) as Hst. inversion Hst as [? a ? _ _ Hr]; subst.
  destruct (valid_counts_result b b1 a Hv Hr) as [Hv1 _].
  destruct (board_value_game_value b1 Hv1) as (z1 & _ & Hz1).
  destruct (IH z1 Hv1 Hz1) as [Hv' (z' & Hz' & Hw)]. split; [done|].
  exists z'. split; [done|]. eapply no_worse_trans; [exact Hw|].
  exact (ai_step_no_worse ai b b1 z z1 Hv Hs Hz Hz1).
Qed.

Lemma replay_vs_rtc (ai : Player) (b b' : board) (moves : list action) :
  replay_vs ai b moves = Some b' → rtc (ai_step ai) b b'.
Proof.
  revert b. induction moves as [|a moves IH]; intros b; simpl.
  - intros [= ->]. apply rtc_refl.
  - destruct (terminal b) eqn:Ht; [done|]. case_decide as Hp.
    + destruct (minimax b) as [[a'|]|] eqn:Hm; try done. case_decide; [subst a'|done].
      destruct (result b a) as [b1|] eqn:Hr; [|done].
      intros Hrep. eapply rtc_l; [by eapply ai_move|]. by apply IH.
    + case_decide as Ha; [|done]. destruct (result b a) as [b1|] eqn:Hr; [|done].
      intros Hrep. eapply rtc_l; [apply human_move; [done|by econstructor]|]. by apply IH.
Qed.

(** ** Theorems *)

(** C21 (liveness): the loop where both players use [minimax], started
    on any reachable board with [search_fuel] iterations, never raises,
    ends on a terminal board reached by legal moves, and the utility of
    that board is the game value of the start. *)
Theorem self_play_ends (b : board) :
  reachable b →
  ∃ b', self_play search_fuel b = Ok b' ∧ terminal b' = true ∧ rtc step b b' ∧
        game_value search_fuel b = Some (utility b').
Proof.
  intros Hr. apply self_play_valid; [by apply reachable_valid_counts|].
  pose proof (length_actions_le b). unfold search_fuel. lia.
Qed.

Lemma self_play_ends_witness :
  reachable initial_state ∧
  ∃ b', self_play search_fuel initial_state = Ok b' ∧ terminal b' = true ∧
        rtc step initial_state b' ∧
        game_value search_fuel initial_state = Some (utility b').
Proof.
  assert (reachable initial_state) as Hr by apply rtc_refl.
  split; [exact Hr|]. exact (self_play_ends initial_state Hr).
Defined.

(** C23: the engine secures the game value: in a game against the
    engine started on a reachable board of game value [z], whatever the
    human plays, the utility of the final board is at least [z] for the
    engine ([≥ z] when it plays [X], [≤ z] when it plays [O]). *)
Theorem ai_secures_game_value (ai : Player) (b b' : board) (z : Z) :
  reachable b → game_value search_fuel b = Some z →
  rtc (ai_step ai) b b' → terminal b' = true → no_worse ai (utility b') z.
Proof.
  intros Hr Hz Hrtc Ht.
  destruct (rtc_ai_no_worse ai b b' z Hrtc (reachable_valid_counts b Hr) Hz) as [_ (z' & Hz' & Hw)].
  rewrite (terminal_search_value b' Ht) in Hz'. by injection Hz' as ->.
Qed.

Lemma ai_secures_game_value_witness :
  reachable x_row2_board ∧ game_value search_fuel x_row2_board = Some (-1)%Z ∧
  rtc (ai_step O) x_row2_board o_credited_board ∧ terminal o_credited_board = true ∧
  no_worse O (utility o_credited_board) (-1)%Z.
Proof.
  assert (reachable x_row2_board) as Hr.
  { apply (replay_reachable initial_state _ [(2, 0); (1, 0); (2, 1); (1, 1); (2, 2)]%Z);
      [apply rtc_refl | vm_compute; reflexivity]. }
  assert (game_value search_fuel x_row2_board = Some (-1)%Z) as Hz by (vm_compute; reflexivity).
  assert (rtc (ai_step O) x_row2_board o_credited_board) as Hs
    by (apply (replay_vs_rtc O _ _ [(1, 2); (0, 0)]%Z); vm_compute; reflexivity).
  assert (terminal o_credited_board = true) as Ht by reflexivity.
  split; [exact Hr|]. split; [exact Hz|]. split; [exact Hs|]. split; [exact Ht|].
  exact (ai_secures_game_value O _ _ _ Hr Hz Hs Ht).
Defined.

(** The board behind the finding on the engine's reply (line 93): it,
    reasoning with [winner], lets the human complete a
    line: playing [O] against (0,2) and (1,2) it answers (1,1) and
    (0,1) instead of blocking (2,2), and after (2,2) the human owns the
    right column, yet the empty left column makes [winner] return
    [None] and the game goes on. *)
Lemma ai_ignores_human_line :
  replay_vs O initial_state [(0, 2); (1, 1); (1, 2); (0, 1); (2, 2)]%Z = Some human_column_board ∧
  spec_winner human_column_board = Some X ∧ winner human_column_board = None ∧
  terminal human_column_board = false.
Proof. vm_compute. repeat split. Qed.
